(** * Tetris rule engine: a shallow embedding of the game page and its hooks

    The development follows [src/app/game/gameClient.tsx] (the page with the
    challenge feature), its older sibling page (same engine, level every ten
    lines, no challenges) and the hooks [useTetris], [useGameLogic] and
    [useChallenge].

    Conventions of the embedding.
    - A JavaScript [number] that only ever holds an integer is a [Z]; array
      indices that the source proves non-negative before use are turned into
      [nat] with [Z.to_nat].
    - The mutable refs and React state cells of the component are the fields
      of one record, [State]; every callback is a function on that record.
      Each callback is taken to run in the closure of the render that follows
      the previous update, so the [level], [lines], [running], [paused] it
      reads are the current ones.
    - A callback that can throw a [TypeError] returns [option]; [None] is the
      exception (or, for the two unbounded loops, a run that does not stop
      within the bound written next to it).
    - Sound cues, canvas drawing, the best score in local storage and the
      frame clock are left out: they do not feed back into the rules. *)

From stdpp Require Import base option list strings.
From Stdlib Require Import ZArith Lia.

Local Open Scope Z_scope.

(** ** Data model *)

Definition COLS : Z := 10.
Definition ROWS : Z := 20.

(** The seven kinds; the constructors carry a [k] so that they do not hide
    [I], [O], [S] and [Z] of the standard library. *)
Inductive Tetromino : Set := kI | kJ | kL | kO | kS | kT | kZ.

Inductive LastAction : Set := ActNone | ActMove | ActSoft | ActHard | ActRotate.

Inductive ChallengeType : Set := Speed | Reverse | NoChallenge.

Inductive TSpin : Set := TNone | TMini | TFull.

Inductive Variant : Set :=
| GameClient   (* gameClient.tsx: level every 5 lines, 120 ms steps, challenges *)
| ClassicPage. (* the sibling page: level every 10 lines, 60 ms steps *)

#[global] Instance Tetromino_eq_dec : EqDecision Tetromino.
Proof. solve_decision. Defined.
#[global] Instance LastAction_eq_dec : EqDecision LastAction.
Proof. solve_decision. Defined.
#[global] Instance ChallengeType_eq_dec : EqDecision ChallengeType.
Proof. solve_decision. Defined.
#[global] Instance TSpin_eq_dec : EqDecision TSpin.
Proof. solve_decision. Defined.

(** [number[][]]; an abbreviation, so that the list lemmas see through it. *)
Abbreviation Matrix := (list (list Z)).

Module Point.
Record t : Set := mk { x : Z; y : Z }.
End Point.

Module Cell.
Record t : Set := mk { filled : bool; color : option string; kind : option Tetromino }.
Definition empty : t := mk false None None.
End Cell.

Module Piece.
Record t : Type := mk { kind : Tetromino; matrix : Matrix; pos : Point.t; color : string }.
Definition withPos (p : t) (q : Point.t) : t := mk (kind p) (matrix p) q (color p).
End Piece.

Module Challenge.
Record t : Set := mk { type : ChallengeType; duration : Z; startTime : option Z }.
Definition none : t := mk NoChallenge 0 None.
End Challenge.

Abbreviation Board := (list (list Cell.t)).

(** The two timers a challenge start schedules: the one-second countdown
    interval and the one-shot reset of the challenge. *)
Inductive Timer : Set :=
| CountdownInterval (c : Challenge.t) (isFirstTime : bool)
| ChallengeReset (delayMs : Z).

Record State : Type := mkState {
  board : Board;                       (* boardRef *)
  cur : option Piece.t;                (* curRef *)
  next : list Tetromino;               (* nextRef *)
  gravityMs : Z;                       (* gravityMsRef *)
  lastAction : LastAction;             (* lastActionRef *)
  rotatedWithKick : bool;              (* rotatedWithKickRef *)
  b2b : bool;                          (* b2bRef *)
  score : Z;
  lines : Z;
  level : Z;
  countdown : option Z;
  seenChallenges : list ChallengeType;
  challenge : Challenge.t;
  running : bool;
  paused : bool;
  timers : list Timer                  (* pending setInterval / setTimeout *)
}.

Definition setBoard (v : Board) (s : State) : State :=
  mkState v (cur s) (next s) (gravityMs s) (lastAction s) (rotatedWithKick s) (b2b s) (score s) (lines s) (level s) (countdown s) (seenChallenges s) (challenge s) (running s) (paused s) (timers s).
Definition setCur (v : option Piece.t) (s : State) : State :=
  mkState (board s) v (next s) (gravityMs s) (lastAction s) (rotatedWithKick s) (b2b s) (score s) (lines s) (level s) (countdown s) (seenChallenges s) (challenge s) (running s) (paused s) (timers s).
Definition setNext (v : list Tetromino) (s : State) : State :=
  mkState (board s) (cur s) v (gravityMs s) (lastAction s) (rotatedWithKick s) (b2b s) (score s) (lines s) (level s) (countdown s) (seenChallenges s) (challenge s) (running s) (paused s) (timers s).
Definition setGravityMs (v : Z) (s : State) : State :=
  mkState (board s) (cur s) (next s) v (lastAction s) (rotatedWithKick s) (b2b s) (score s) (lines s) (level s) (countdown s) (seenChallenges s) (challenge s) (running s) (paused s) (timers s).
Definition setLastAction (v : LastAction) (s : State) : State :=
  mkState (board s) (cur s) (next s) (gravityMs s) v (rotatedWithKick s) (b2b s) (score s) (lines s) (level s) (countdown s) (seenChallenges s) (challenge s) (running s) (paused s) (timers s).
Definition setRotatedWithKick (v : bool) (s : State) : State :=
  mkState (board s) (cur s) (next s) (gravityMs s) (lastAction s) v (b2b s) (score s) (lines s) (level s) (countdown s) (seenChallenges s) (challenge s) (running s) (paused s) (timers s).
Definition setB2b (v : bool) (s : State) : State :=
  mkState (board s) (cur s) (next s) (gravityMs s) (lastAction s) (rotatedWithKick s) v (score s) (lines s) (level s) (countdown s) (seenChallenges s) (challenge s) (running s) (paused s) (timers s).
Definition setScore (v : Z) (s : State) : State :=
  mkState (board s) (cur s) (next s) (gravityMs s) (lastAction s) (rotatedWithKick s) (b2b s) v (lines s) (level s) (countdown s) (seenChallenges s) (challenge s) (running s) (paused s) (timers s).
Definition setLines (v : Z) (s : State) : State :=
  mkState (board s) (cur s) (next s) (gravityMs s) (lastAction s) (rotatedWithKick s) (b2b s) (score s) v (level s) (countdown s) (seenChallenges s) (challenge s) (running s) (paused s) (timers s).
Definition setLevel (v : Z) (s : State) : State :=
  mkState (board s) (cur s) (next s) (gravityMs s) (lastAction s) (rotatedWithKick s) (b2b s) (score s) (lines s) v (countdown s) (seenChallenges s) (challenge s) (running s) (paused s) (timers s).
Definition setCountdown (v : option Z) (s : State) : State :=
  mkState (board s) (cur s) (next s) (gravityMs s) (lastAction s) (rotatedWithKick s) (b2b s) (score s) (lines s) (level s) v (seenChallenges s) (challenge s) (running s) (paused s) (timers s).
Definition setRunning (v : bool) (s : State) : State :=
  mkState (board s) (cur s) (next s) (gravityMs s) (lastAction s) (rotatedWithKick s) (b2b s) (score s) (lines s) (level s) (countdown s) (seenChallenges s) (challenge s) v (paused s) (timers s).
Definition setPaused (v : bool) (s : State) : State :=
  mkState (board s) (cur s) (next s) (gravityMs s) (lastAction s) (rotatedWithKick s) (b2b s) (score s) (lines s) (level s) (countdown s) (seenChallenges s) (challenge s) (running s) v (timers s).
Definition addTimers (v : list Timer) (s : State) : State :=
  mkState (board s) (cur s) (next s) (gravityMs s) (lastAction s) (rotatedWithKick s) (b2b s) (score s) (lines s) (level s) (countdown s) (seenChallenges s) (challenge s) (running s) (paused s) (timers s ++ v).

(** ** Constant tables *)

Definition COLORS (k : Tetromino) : string :=
  match k with
  | kI => "#06b6d4" | kJ => "#3b82f6" | kL => "#f59e0b" | kO => "#eab308"
  | kS => "#22c55e" | kT => "#a855f7" | kZ => "#ef4444"
  end%string.

Definition SHAPES (k : Tetromino) : Matrix :=
  match k with
  | kI => [[0; 0; 0; 0]; [1; 1; 1; 1]; [0; 0; 0; 0]; [0; 0; 0; 0]]
  | kJ => [[1; 0; 0]; [1; 1; 1]; [0; 0; 0]]
  | kL => [[0; 0; 1]; [1; 1; 1]; [0; 0; 0]]
  | kO => [[1; 1]; [1; 1]]
  | kS => [[0; 1; 1]; [1; 1; 0]; [0; 0; 0]]
  | kT => [[0; 1; 0]; [1; 1; 1]; [0; 0; 0]]
  | kZ => [[1; 1; 0]; [0; 1; 1]; [0; 0; 0]]
  end.

(** ** Matrix ops *)

(** [m[i][j]]; an index outside the array reads [undefined] in the source,
    which only a ragged input can reach: the model reads [0] there. *)
Definition getCell (m : Matrix) (i j : nat) : Z :=
  default 0 (m !! i ≫= (.!! j)).

(** [r[i][j] = v] for a position inside [r] (the rotations write nowhere
    else: [r] is allocated [w] by [h] and the loops stay below both). *)
Definition setCell (r : Matrix) (i j : nat) (v : Z) : Matrix :=
  alter (<[j := v]>) i r.

(** [m[0].length] throws on the empty array: [None]. *)
Definition rotateCW (m : Matrix) : option Matrix :=
  row0 ← m !! 0%nat;
  let h := length m in
  let w := length row0 in
  let r := replicate w (replicate h 0) in
  Some (foldl (fun r y =>
                 foldl (fun r x => setCell r x (h - 1 - y) (getCell m y x)) r (seq 0 w))
              r (seq 0 h)).

Definition rotateCCW (m : Matrix) : option Matrix :=
  row0 ← m !! 0%nat;
  let h := length m in
  let w := length row0 in
  let r := replicate w (replicate h 0) in
  Some (foldl (fun r y =>
                 foldl (fun r x => setCell r (w - 1 - x) y (getCell m y x)) r (seq 0 w))
              r (seq 0 h)).

(** ** Bag randomizer *)

Definition swap {A} (l : list A) (i j : nat) : list A :=
  match l !! i, l !! j with
  | Some a, Some b => <[j := a]> (<[i := b]> l)
  | _, _ => l
  end.

(** Fisher-Yates from the top index down; [rnd i] stands for the draw
    [Math.floor(Math.random() * (i + 1))] of step [i]. *)
Fixpoint shuffle {A} (rnd : nat → nat) (i : nat) (bag : list A) : list A :=
  match i with
  | O => bag
  | S i' => shuffle rnd i' (swap bag i (rnd i `mod` (i + 1))%nat)
  end.

Definition newBag (rnd : nat → nat) : list Tetromino :=
  let bag := [kI; kJ; kL; kO; kS; kT; kZ] in
  shuffle rnd (length bag - 1) bag.

Definition emptyRow : list Cell.t := replicate (Z.to_nat COLS) Cell.empty.

Definition createEmptyBoard : Board := replicate (Z.to_nat ROWS) emptyRow.

(** ** Board model *)

(** [board[ny][nx].filled], read by the source only after it has checked
    [0 <= ny < ROWS] and [0 <= nx < COLS]; on a board of [ROWS] rows of [COLS]
    cells the lookup is always inside. *)
Definition filledAt (b : Board) (ny nx : Z) : bool :=
  match b !! Z.to_nat ny ≫= (.!! Z.to_nat nx) with
  | Some c => Cell.filled c
  | None => false
  end.

(** The inner loop of [collides] over the cells of matrix row [y], from
    column [x] on; [true] is the early [return true]. *)
Fixpoint collidesRow (b : Board) (pos delta : Point.t) (y : Z) (row : list Z) (x : Z) : bool :=
  match row with
  | [] => false
  | v :: row' =>
      if v =? 0 then collidesRow b pos delta y row' (x + 1)
      else
        let nx := Point.x pos + x + Point.x delta in
        let ny := Point.y pos + y + Point.y delta in
        if ny <? 0 then collidesRow b pos delta y row' (x + 1)
        else if (nx <? 0) || (nx >=? COLS) || (ny >=? ROWS) then true
        else if filledAt b ny nx then true
        else collidesRow b pos delta y row' (x + 1)
  end.

Fixpoint collidesRows (b : Board) (pos delta : Point.t) (rows : Matrix) (y : Z) : bool :=
  match rows with
  | [] => false
  | row :: rows' =>
      if collidesRow b pos delta y row 0 then true
      else collidesRows b pos delta rows' (y + 1)
  end.

Definition collides (p : Piece.t) (b : Board) (delta : Point.t) : bool :=
  collidesRows b (Piece.pos p) delta (Piece.matrix p) 0.

(** [board[by][bx] = c]. Below the last row [board[by]] is [undefined] and
    the assignment throws; left or right of a row the assignment would add a
    property or stretch the row, and the grid stops being a board: the model
    stops there too ([None]). Neither happens for a piece that does not
    collide where it stands. *)
Definition writeCell (b : Board) (by_ bx : Z) (c : Cell.t) : option Board :=
  row ← b !! Z.to_nat by_;
  if (0 <=? bx) && (bx <? Z.of_nat (length row))
  then Some (<[Z.to_nat by_ := <[Z.to_nat bx := c]> row]> b)
  else None.

Fixpoint mergeRow (c : Cell.t) (pos : Point.t) (y : Z) (row : list Z) (x : Z) (b : Board) : option Board :=
  match row with
  | [] => Some b
  | v :: row' =>
      if v =? 0 then mergeRow c pos y row' (x + 1) b
      else
        let bx := Point.x pos + x in
        let by_ := Point.y pos + y in
        if by_ >=? 0
        then b' ← writeCell b by_ bx c; mergeRow c pos y row' (x + 1) b'
        else mergeRow c pos y row' (x + 1) b
  end.

Fixpoint mergeRows (c : Cell.t) (pos : Point.t) (rows : Matrix) (y : Z) (b : Board) : option Board :=
  match rows with
  | [] => Some b
  | row :: rows' => b' ← mergeRow c pos y row 0 b; mergeRows c pos rows' (y + 1) b'
  end.

Definition merge (p : Piece.t) (b : Board) : option Board :=
  mergeRows (Cell.mk true (Some (Piece.color p)) (Some (Piece.kind p)))
            (Piece.pos p) (Piece.matrix p) 0 b.

(** [row.every((c) => c.filled)] *)
Definition rowFull (row : list Cell.t) : bool := forallb Cell.filled row.

(** The row-removal loop at the head of [clearLines]:
    [for (let y = ROWS - 1; y >= 0; ) ...]. [splice(y, 1)] is [delete],
    [unshift] is a cons. [board[y]] is [undefined] on a board with fewer
    than [ROWS] rows and [every] throws. Every turn either lowers [y] or
    swaps a full row for an empty one, so [2 * ROWS] turns are enough for
    the twenty rows the loop looks at. *)
Fixpoint clearLoop (fuel : nat) (b : Board) (y : Z) (cleared : Z) : option (Board * Z) :=
  if y <? 0 then Some (b, cleared)
  else match fuel with
       | O => None
       | S fuel' =>
           row ← b !! Z.to_nat y;
           if rowFull row
           then clearLoop fuel' (emptyRow :: delete (Z.to_nat y) b) y (cleared + 1)
           else clearLoop fuel' b (y - 1) cleared
       end.

Definition clearRows (b : Board) : option (Board * Z) :=
  clearLoop (Z.to_nat (2 * ROWS)) b (ROWS - 1) 0.

Definition isPerfectClear (b : Board) : bool :=
  forallb (fun y => forallb (fun x => negb (filledAt b y x)) (seqZ 0 COLS)) (seqZ 0 ROWS).

(** ** T-spin detection *)

Definition cornerBlocked (b : Board) (p : Point.t) : bool :=
  if (Point.y p <? 0) || (Point.x p <? 0) || (Point.x p >=? COLS) || (Point.y p >=? ROWS)
  then true
  else filledAt b (Point.y p) (Point.x p).

Definition corners (cur : Piece.t) : list Point.t :=
  let cx := Point.x (Piece.pos cur) + 1 in
  let cy := Point.y (Piece.pos cur) + 1 in
  [Point.mk (cx - 1) (cy - 1); Point.mk (cx + 1) (cy - 1);
   Point.mk (cx - 1) (cy + 1); Point.mk (cx + 1) (cy + 1)].

Definition blockedCorners (b : Board) (cur : Piece.t) : Z :=
  Z.of_nat (length (filter (fun p => cornerBlocked b p = true) (corners cur))).

(** [isTSpin] reads the board, the last action and the kick flag from the
    refs at the time it is called. *)
Definition isTSpin (s : State) (cur : Piece.t) : TSpin :=
  if negb (bool_decide (Piece.kind cur = kT)) then TNone
  else if negb (bool_decide (lastAction s = ActRotate)) then TNone
  else if blockedCorners (board s) cur >=? 3
       then (if rotatedWithKick s then TMini else TFull)
       else TNone.

(** ** Scoring *)

Definition normalBase (cleared : Z) : option Z :=
  match cleared with 1 => Some 100 | 2 => Some 300 | 3 => Some 500 | 4 => Some 800 | _ => None end.
Definition tMiniBase (cleared : Z) : option Z :=
  match cleared with 0 => Some 100 | 1 => Some 200 | _ => None end.
Definition tFullBase (cleared : Z) : option Z :=
  match cleared with 0 => Some 400 | 2 => Some 1200 | 3 => Some 1600 | _ => None end.
Definition pcBonus (cleared : Z) : option Z :=
  match cleared with 1 => Some 800 | 2 => Some 1200 | 3 => Some 1800 | 4 => Some 2000 | _ => None end.

(** [Math.round(g * 1.5)] on an integer [g]: the product is an integer or a
    half, and [Math.round] takes halves upwards. *)
Definition round15 (g : Z) : Z := (3 * g + 1) `div` 2.

(** The points of one clear event and the flag it leaves in [b2bRef]: the
    block of [clearLines] from the base tables to the perfect-clear bonus.
    [b2b0] is [b2bRef.current] on entry, [pc] is [isPerfectClear(board)]. *)
Definition clearScore (cleared : Z) (tspin : TSpin) (lvl : Z) (b2b0 pc : bool) : Z * bool :=
  let gained :=
    match tspin with
    | TMini => default 0 (tMiniBase cleared)
    | TFull => default 0 (tFullBase cleared)
    | TNone => default 0 (normalBase cleared)
    end in
  let gained := gained + lvl * 10 in
  let isB2BEvent := (cleared =? 4) || (negb (bool_decide (tspin = TNone)) && (cleared >? 0)) in
  let gained := if isB2BEvent && b2b0 then round15 gained else gained in
  let b2b1 := if isB2BEvent then true else false in
  if pc then
    let gained := gained + default 0 (pcBonus cleared) in
    let gained := if (cleared =? 4) && b2b1 then gained + 1200 else gained in
    (gained, true)
  else (gained, b2b1).

(** [updateScore] of the hook [useGameLogic]: the same tables behind plain
    arguments; what it returns is the gain. *)
Definition updateScore (cleared lvl : Z) (isTSpin_ isB2B isPerfectClear_ : bool) : Z :=
  let gained :=
    if isTSpin_
    then match tMiniBase cleared with
         | Some g => g
         | None => default 0 (tFullBase cleared)
         end
    else default 0 (normalBase cleared) in
  let gained := gained + lvl * 10 in
  let gained := if isB2B then round15 gained else gained in
  if isPerfectClear_ then
    let gained := gained + default 0 (pcBonus cleared) in
    if (cleared =? 4) && isB2B then gained + 1200 else gained
  else gained.

(** ** Progression and the challenge trigger *)

Definition linesPerLevel (v : Variant) : Z := match v with GameClient => 5 | ClassicPage => 10 end.
Definition gravityStep (v : Variant) : Z := match v with GameClient => 120 | ClassicPage => 60 end.

Definition calculateSpeed (v : Variant) (lvl : Z) : Z :=
  Z.max 120 (800 - (lvl - 1) * gravityStep v).

Definition updateLevel (v : Variant) (totalLines : Z) : Z :=
  1 + totalLines `div` linesPerLevel v.

Definition challengeTypeFor (newLevel : Z) : ChallengeType :=
  if newLevel `mod` 4 =? 0 then Reverse else Speed.

(** The synchronous part of the challenge start ([startChallenge] of
    [useChallenge], inlined in [clearLines] of the game page): pause, set the
    countdown, schedule the two timers. *)
Definition startChallenge (newLevel : Z) (s : State) : State :=
  if newLevel `mod` 2 =? 0 then
    let challengeType := challengeTypeFor newLevel in
    let newChallenge := Challenge.mk challengeType 30000 None in
    let isFirstTime := negb (bool_decide (challengeType ∈ seenChallenges s)) in
    let initialCountdown := if isFirstTime then 5 else 3 in
    addTimers [CountdownInterval newChallenge isFirstTime;
               ChallengeReset (Challenge.duration newChallenge + (if isFirstTime then 5000 else 3000))]
      (setCountdown (Some initialCountdown) (setPaused true s))
  else s.

(** ** clearLines *)

(** [curRef.current!] is dereferenced by [isTSpin]: with no piece in the ref
    that throws ([None]). [level], [lines] and [seenChallenges] are read by
    the source from the render that created the callback, while [setLines]
    and [setScore] update the latest state; here all of them are fields of
    [s], which is the call made in an up-to-date closure (the convention at
    the head of the file). Further calls that the frame loop makes within the
    same closure are not described by this definition. *)
Definition clearLines (v : Variant) (s : State) : option State :=
  '(b', cleared) ← clearRows (board s);
  let s := setBoard b' s in
  if cleared >? 0 then
    p ← cur s;
    let tspin := isTSpin s p in
    let '(gained, b2b') := clearScore cleared tspin (level s) (b2b s) (isPerfectClear b') in
    let newLevel := updateLevel v (lines s + cleared) in
    let s1 := setGravityMs (calculateSpeed v newLevel)
                (setLevel newLevel
                  (setScore (score s + gained)
                    (setB2b b2b'
                      (setLines (lines s + cleared) s)))) in
    let s2 := match v with
              | GameClient => startChallenge newLevel s1
              | ClassicPage => s1
              end in
    Some (setLastAction ActNone (setRotatedWithKick false s2))
  else Some s.

(** ** Spawn *)

(** [shift()] on an empty queue gives [undefined] and [SHAPES[undefined].map]
    throws; the refill just before makes the queue at least seven long. *)
Definition spawnPiece (k : Tetromino) : Piece.t :=
  let matrix := SHAPES k in
  let width := Z.of_nat (length (default [] (matrix !! 0%nat))) in
  Piece.mk k matrix
           (Point.mk ((COLS - width) `div` 2) (- Z.of_nat (length matrix) + 1))
           (COLORS k).

Definition spawn (rnd : nat → nat) (s : State) : option State :=
  let queue := if (length (next s) <=? 2)%nat then next s ++ newBag rnd else next s in
  match queue with
  | [] => None
  | k :: rest =>
      let s := setNext rest s in
      let piece := spawnPiece k in
      if collides piece (board s) (Point.mk 0 0)
      then Some (setRunning false s)
      else Some (setCur (Some piece) s)
  end.

(** ** Move, drop, rotate *)

(** The tail shared by [softDrop] and [hardDrop]: [merge(cur); clearLines();
    spawn()]. *)
Definition lock (v : Variant) (rnd : nat → nat) (p : Piece.t) (s : State) : option State :=
  b' ← merge p (board s);
  s' ← clearLines v (setBoard b' s);
  spawn rnd s'.

Definition move (v : Variant) (dx : Z) (s : State) : State :=
  if paused s then s
  else
    let s := setLastAction ActMove s in
    match cur s with
    | None => s
    | Some p =>
        if negb (running s) then s
        else
          let actualDx :=
            match v with
            | GameClient =>
                if bool_decide (Challenge.type (challenge s) = Reverse) then - dx else dx
            | ClassicPage => dx
            end in
          if negb (collides p (board s) (Point.mk actualDx 0))
          then setCur (Some (Piece.withPos p (Point.mk (Point.x (Piece.pos p) + actualDx)
                                                       (Point.y (Piece.pos p))))) s
          else s
    end.

Definition softDrop (v : Variant) (rnd : nat → nat) (s : State) : option State :=
  if paused s then Some s
  else
    let s := setLastAction ActSoft s in
    match cur s with
    | None => Some s
    | Some p =>
        if negb (running s) then Some s
        else if negb (collides p (board s) (Point.mk 0 1))
        then Some (setScore (score s + 1)
                     (setCur (Some (Piece.withPos p (Point.mk (Point.x (Piece.pos p))
                                                              (Point.y (Piece.pos p) + 1)))) s))
        else lock v rnd p s
    end.

(** [while (!collides(cur, board, {x: 0, y: 1})) { cur.pos.y++; d++; }]. A
    piece with a filled cell stops at the floor at the latest; a matrix with
    no filled cell never collides and the source loops for ever: [None] when
    the bound runs out. *)
Fixpoint dropLoop (fuel : nat) (b : Board) (p : Piece.t) (d : Z) : option (Piece.t * Z) :=
  if collides p b (Point.mk 0 1) then Some (p, d)
  else match fuel with
       | O => None
       | S fuel' =>
           dropLoop fuel' b
             (Piece.withPos p (Point.mk (Point.x (Piece.pos p)) (Point.y (Piece.pos p) + 1)))
             (d + 1)
       end.

Definition hardDrop (v : Variant) (rnd : nat → nat) (s : State) : option State :=
  if paused s then Some s
  else
    let s := setLastAction ActHard s in
    match cur s with
    | None => Some s
    | Some p =>
        if negb (running s) then Some s
        else
          '(p', d) ← dropLoop (Z.to_nat (ROWS - Point.y (Piece.pos p))) (board s) p 0;
          lock v rnd p' (setScore (score s + Z.max 0 d * 2) (setCur (Some p') s))
    end.

Definition kicks : list Z := [0; -1; 1; -2; 2].

(** [for (const k of kicks) ...] of [rotate]: the first offset at which the
    trial piece does not collide is taken. *)
Fixpoint tryKicks (ks : list Z) (p : Piece.t) (m : Matrix) (s : State) : State :=
  match ks with
  | [] => s
  | k :: ks' =>
      let trial :=
        Piece.mk (Piece.kind p) m
                 (Point.mk (Point.x (Piece.pos p) + k) (Point.y (Piece.pos p)))
                 (Piece.color p) in
      if negb (collides trial (board s) (Point.mk 0 0))
      then setLastAction ActRotate
             (setRotatedWithKick (negb (k =? 0))
               (setCur (Some (Piece.mk (Piece.kind p) m
                                       (Point.mk (Point.x (Piece.pos trial)) (Point.y (Piece.pos p)))
                                       (Piece.color p))) s))
      else tryKicks ks' p m s
  end.

Definition rotate (ccw : bool) (s : State) : option State :=
  match cur s with
  | None => Some s
  | Some p =>
      if negb (running s) || paused s then Some s
      else
        m ← (if ccw then rotateCCW (Piece.matrix p) else rotateCW (Piece.matrix p));
        Some (tryKicks kicks p m s)
  end.

(** ** Notions used to state the properties *)

(** [m[i][j]] as a partial lookup. *)
Definition cell {A} (m : list (list A)) (i j : nat) : option A :=
  m !! i ≫= (.!! j).

(** An [h] by [w] grid: [h] rows, each of [w] cells. *)
Definition rectangular {A} (h w : nat) (m : list (list A)) : Prop :=
  length m = h ∧ Forall (fun row => length row = w) m.

(** A run of assignments [r[i][j] = v], oldest first. *)
Definition applyWrites (r : Matrix) (ws : list (nat * nat * Z)) : Matrix :=
  foldl (fun r '(i, j, v) => setCell r i j v) r ws.

(** The assignments of the two rotation loops, in loop order. *)
Definition writesCW (m : Matrix) (h w : nat) : list (nat * nat * Z) :=
  y ← seq 0 h; x ← seq 0 w; [(x, (h - 1 - y)%nat, getCell m y x)].

Definition writesCCW (m : Matrix) (h w : nat) : list (nat * nat * Z) :=
  y ← seq 0 h; x ← seq 0 w; [((w - 1 - x)%nat, y, getCell m y x)].

(** The board coordinate of matrix cell [(i, j)] of a piece moved by [delta]. *)
Definition cellX (p : Piece.t) (delta : Point.t) (j : nat) : Z :=
  Point.x (Piece.pos p) + Z.of_nat j + Point.x delta.
Definition cellY (p : Piece.t) (delta : Point.t) (i : nat) : Z :=
  Point.y (Piece.pos p) + Z.of_nat i + Point.y delta.

(** What a cell of value [v] at matrix row [y], column [x] contributes to
    [collides]: it is filled, its board row is not negative, and it is past a
    side wall, past the floor or on a filled cell. *)
Definition hitsAt (b : Board) (pos delta : Point.t) (y x v : Z) : Prop :=
  v ≠ 0 ∧ 0 ≤ Point.y pos + y + Point.y delta ∧
  (Point.x pos + x + Point.x delta < 0 ∨ COLS ≤ Point.x pos + x + Point.x delta ∨
   ROWS ≤ Point.y pos + y + Point.y delta ∨
   filledAt b (Point.y pos + y + Point.y delta) (Point.x pos + x + Point.x delta) = true).

(** Matrix cell [(i, j)] is filled, lands on row zero or below, and there it
    is outside the side walls, below the floor, or on a filled board cell. *)
Definition cellHits (p : Piece.t) (b : Board) (delta : Point.t) (i j : nat) : Prop :=
  ∃ v, cell (Piece.matrix p) i j = Some v ∧ v ≠ 0 ∧
       0 ≤ cellY p delta i ∧
       (cellX p delta j < 0 ∨ COLS ≤ cellX p delta j ∨ ROWS ≤ cellY p delta i ∨
        filledAt b (cellY p delta i) (cellX p delta j) = true).

(** The number of full rows of a board, and its other rows in their order. *)
Definition fullRows (b : Board) : nat := length (filter (fun row => rowFull row = true) b).
Definition keptRows (b : Board) : Board := filter (fun row => rowFull row = false) b.

(** The piece [rotate] tries at kick offset [k]: the rotated matrix [m] at
    the current row, [k] columns to the right. *)
Definition trialAt (p : Piece.t) (m : Matrix) (k : Z) : Piece.t :=
  Piece.mk (Piece.kind p) m
           (Point.mk (Point.x (Piece.pos p) + k) (Point.y (Piece.pos p)))
           (Piece.color p).

(** The queue [spawn] takes its piece from: the old one, refilled with a new
    bag when it is two long or shorter. *)
Definition refill (rnd : nat → nat) (queue : list Tetromino) : list Tetromino :=
  if (length queue <=? 2)%nat then queue ++ newBag rnd else queue.

Definition origin : Point.t := Point.mk 0 0.

(** The state [clearLines] has built after a clear event of [cleared] rows
    that left board [b'], before the challenge trigger and the reset of the
    spin flags. *)
Definition scored (v : Variant) (s : State) (b' : Board) (cleared : Z) (p : Piece.t) : State :=
  let tspin := isTSpin (setBoard b' s) p in
  let r := clearScore cleared tspin (level s) (b2b s) (isPerfectClear b') in
  let newLevel := updateLevel v (lines s + cleared) in
  setGravityMs (calculateSpeed v newLevel)
    (setLevel newLevel
      (setScore (score s + r.1)
        (setB2b r.2 (setLines (lines s + cleared) (setBoard b' s))))).

(** The points of a clear event before back-to-back and perfect clear: the
    table entry for the classification plus ten per level. *)
Definition basePoints (cleared : Z) (tspin : TSpin) (lvl : Z) : Z :=
  default 0 (match tspin with
             | TMini => tMiniBase cleared
             | TFull => tFullBase cleared
             | TNone => normalBase cleared
             end) + lvl * 10.

(** In the words of the specification: a row is full when every one of its
    cells is filled. *)
Definition everyCellFilled (row : list Cell.t) : Prop :=
  Forall (fun c => Cell.filled c = true) row.

#[global] Instance everyCellFilled_dec (row : list Cell.t) : Decision (everyCellFilled row).
Proof. unfold everyCellFilled. apply _. Defined.



Definition outsideBoard (pt : Point.t) : Prop :=
  Point.x pt < 0 ∨ COLS ≤ Point.x pt ∨ Point.y pt < 0 ∨ ROWS ≤ Point.y pt.

Definition cornerIsBlocked (b : Board) (pt : Point.t) : Prop :=
  outsideBoard pt ∨ filledAt b (Point.y pt) (Point.x pt) = true.

#[global] Instance cornerIsBlocked_dec (b : Board) (pt : Point.t) : Decision (cornerIsBlocked b pt).
Proof. unfold cornerIsBlocked, outsideBoard. apply _. Defined.


(** ** Concrete positions used in the examples *)

Definition filledCell : Cell.t := Cell.mk true (Some (COLORS kI)) (Some kI).

(** A board row from a row of 0/1. *)
Definition rowOf (bits : list Z) : list Cell.t :=
  (fun v => if v =? 0 then Cell.empty else filledCell) <$> bits.

(** The board whose lowest rows are the given ones, empty above. *)
Definition boardOf (low : list (list Z)) : Board :=
  replicate (Z.to_nat ROWS - length low) emptyRow ++ (rowOf <$> low).

Definition freshState (b : Board) (p : option Piece.t) : State :=
  mkState b p [kO; kS; kZ; kJ; kL] 800 ActNone false false 0 0 1 None [] Challenge.none
          true false [].

Definition noDraw : nat → nat := fun _ => 0%nat.

(** The T piece pointing down: its bar in matrix row 1, its stem below. *)
Definition tDown (pos : Point.t) : Piece.t :=
  Piece.mk kT [[0; 0; 0]; [1; 1; 1]; [0; 1; 0]] pos (COLORS kT).

(** The I piece upright in matrix column 2. *)
Definition iUpright (pos : Point.t) : Piece.t :=
  Piece.mk kI [[0; 0; 1; 0]; [0; 0; 1; 0]; [0; 0; 1; 0]; [0; 0; 1; 0]] pos (COLORS kI).

(** Four rows full but for column 0, and the upright I standing in that
    column: locking it clears the four rows and empties the board. The
    back-to-back flag carried in is false. *)
Definition wellBoard : Board :=
  boardOf (replicate 4 [0; 1; 1; 1; 1; 1; 1; 1; 1; 1]).
Definition wellState : State :=
  freshState wellBoard (Some (iUpright (Point.mk (-2) 16))).

(** Level 2 with five lines made, a speed challenge under way, and a flat I
    about to complete the bottom row. *)
Definition levelTwoState : State :=
  mkState (boardOf [[0; 0; 0; 0; 1; 1; 1; 1; 1; 1]])
          (Some (Piece.mk kI (SHAPES kI) (Point.mk 0 18) (COLORS kI)))
          [kO; kS; kZ; kJ; kL] 680 ActNone false false 550 5 2 None [Speed]
          (Challenge.mk Speed 30000 (Some 1000)) true false [].

(** A T-spin double pocket in the lower left corner: the bar of the T fits
    under the overhang at (0, 17), its stem into the hole of the bottom row.
    Three of the four corners of the T are filled. The T has just been
    rotated in, without a kick. *)
Definition pocketBoard : Board :=
  boardOf [[1; 0; 0; 0; 0; 0; 0; 0; 0; 0];
           [0; 0; 0; 1; 1; 1; 1; 1; 1; 1];
           [1; 0; 1; 1; 1; 1; 1; 1; 1; 1]].
Definition pocketState : State :=
  setLastAction ActRotate (freshState pocketBoard (Some (tDown (Point.mk 0 17)))).

(** A game that is over: nothing is running, the last piece is still in the
    ref, and the last action on record is the rotation before it locked. *)
Definition stoppedState : State :=
  setRunning false
    (setLastAction ActRotate (freshState createEmptyBoard (Some (tDown (Point.mk 3 17))))).

(** An upright T (pointing right) against the left wall. *)
Definition wallState : State :=
  freshState createEmptyBoard
    (Some (Piece.mk kT [[0; 1; 0]; [0; 1; 1]; [0; 1; 0]] (Point.mk (-1) 5) (COLORS kT))).

(** Two full rows with a row between them that lacks nine cells. *)
Definition stripedBoard : Board :=
  boardOf [[1; 1; 1; 1; 1; 1; 1; 1; 1; 1];
           [1; 0; 0; 0; 0; 0; 0; 0; 0; 0];
           [1; 1; 1; 1; 1; 1; 1; 1; 1; 1]].

(** ** Further parts of the pages and hooks *)

Definition setChallenge (v : Challenge.t) (s : State) : State :=
  mkState (board s) (cur s) (next s) (gravityMs s) (lastAction s) (rotatedWithKick s) (b2b s) (score s) (lines s) (level s) (countdown s) (seenChallenges s) v (running s) (paused s) (timers s).

(** [reset]: a new board, a new bag, the counters and flags back to their
    start values, then [spawn]. The countdown, the seen challenges and the
    pending timers are not touched. [rndBag] drives the bag of [reset]
    itself, [rndSpawn] the one [spawn] would draw. *)
Definition reset (rndBag rndSpawn : nat → nat) (s : State) : option State :=
  spawn rndSpawn
    (mkState createEmptyBoard None (newBag rndBag) 800 ActNone false false 0 0 1
             (countdown s) (seenChallenges s) Challenge.none true false (timers s)).

(** The collision test that [spawn] of the hook [useTetris] carries inline:
    no delta, and the four tests folded into one condition. *)
Fixpoint spawnCollidesRow (b : Board) (pos : Point.t) (y : Z) (row : list Z) (x : Z) : bool :=
  match row with
  | [] => false
  | v :: row' =>
      if v =? 0 then spawnCollidesRow b pos y row' (x + 1)
      else
        let ny := Point.y pos + y in
        let nx := Point.x pos + x in
        if ny <? 0 then spawnCollidesRow b pos y row' (x + 1)
        else if (nx <? 0) || (nx >=? COLS) || (ny >=? ROWS) || filledAt b ny nx then true
        else spawnCollidesRow b pos y row' (x + 1)
  end.

Fixpoint spawnCollidesRows (b : Board) (pos : Point.t) (rows : Matrix) (y : Z) : bool :=
  match rows with
  | [] => false
  | row :: rows' =>
      if spawnCollidesRow b pos y row 0 then true
      else spawnCollidesRows b pos rows' (y + 1)
  end.

(** The refs and state of the hook [useTetris] that its [spawn] touches. *)
Module Hook.
Record t : Type := mk { board : Board; cur : option Piece.t; next : list Tetromino; running : bool }.
End Hook.

(** [spawn] of [useTetris]: it returns the piece, or [null] when the piece
    is blocked. The outer [None] is the throw on an empty queue. *)
Definition useTetrisSpawn (rnd : nat → nat) (h : Hook.t) : option (Hook.t * option Piece.t) :=
  let queue := if (length (Hook.next h) <=? 2)%nat then Hook.next h ++ newBag rnd
               else Hook.next h in
  match queue with
  | [] => None
  | k :: rest =>
      let piece := spawnPiece k in
      if spawnCollidesRows (Hook.board h) (Piece.pos piece) (Piece.matrix piece) 0
      then Some (Hook.mk (Hook.board h) (Hook.cur h) rest false, None)
      else Some (Hook.mk (Hook.board h) (Some piece) rest (Hook.running h), Some piece)
  end.

(** ** Invariants *)

(** A board of [ROWS] rows of [COLS] cells. *)
Definition wfBoard (b : Board) : Prop := rectangular (Z.to_nat ROWS) (Z.to_nat COLS) b.

(** A matrix with at least one filled cell. *)
Definition hasFilledCell (m : Matrix) : Prop := ∃ i j v, cell m i j = Some v ∧ v ≠ 0.

(** A grid with at least one row and one column. *)
Definition properGrid (m : Matrix) : Prop :=
  ∃ h w, (0 < h)%nat ∧ (0 < w)%nat ∧ rectangular h w m.

(** Board cell (row [r], column [c]) is under a filled cell of the piece. *)
Definition covers (p : Piece.t) (r c : Z) : Prop :=
  ∃ i j v, cell (Piece.matrix p) i j = Some v ∧ v ≠ 0 ∧
           r = Point.y (Piece.pos p) + Z.of_nat i ∧ c = Point.x (Piece.pos p) + Z.of_nat j.

Definition shifted (p : Piece.t) (dx dy : Z) : Piece.t :=
  Piece.withPos p (Point.mk (Point.x (Piece.pos p) + dx) (Point.y (Piece.pos p) + dy)).

(** While the game runs, the active piece lies free on a well-formed board
    and has a proper matrix with a filled cell. *)
Definition inPlay (s : State) : Prop :=
  wfBoard (board s) ∧
  (∀ p, cur s = Some p → properGrid (Piece.matrix p) ∧ hasFilledCell (Piece.matrix p)) ∧
  (running s = true → ∀ p, cur s = Some p → collides p (board s) origin = false).

(** The piece [k] rows further down. *)
Definition lowered (p : Piece.t) (k : Z) : Piece.t :=
  Piece.withPos p (Point.mk (Point.x (Piece.pos p)) (Point.y (Piece.pos p) + k)).

(** The points a lock adds for the [n] rows it cleared, with [isTSpin]
    answering [t]. *)
Definition lockGain (n : Z) (t : TSpin) (s : State) (b' : Board) : Z :=
  if 0 <? n then (clearScore n t (level s) (b2b s) (isPerfectClear b')).1 else 0.

(** What a lock of piece [p] in state [s] leaves: board [b'] after [n]
    cleared rows, and the counters of the state [s'] it returns. *)
Definition lockOutcome (v : Variant) (s : State) (p : Piece.t) (b' : Board) (n : Z)
    (s' : State) : Prop :=
  board s' = b' ∧ wfBoard b' ∧ fullRows b' = 0%nat ∧ 0 ≤ n ≤ ROWS ∧
  score s' = score s + lockGain n (isTSpin (setBoard b' s) p) s b' ∧
  lines s' = lines s + n ∧
  level s' = (if 0 <? n then updateLevel v (lines s + n) else level s) ∧
  gravityMs s' = (if 0 <? n then calculateSpeed v (updateLevel v (lines s + n))
                  else gravityMs s) ∧
  inPlay s'.

(** * Matrix ops *)

Section MatrixOps.
Implicit Types (m r : Matrix) (h w i j x y : nat) (v : Z).

Lemma cell_Some_lt {A} (g : list (list A)) i j a :
  cell g i j = Some a → ∃ row, g !! i = Some row ∧ row !! j = Some a.
Proof.
  unfold cell. destruct (g !! i) as [row|] eqn:E; simpl; [eauto | discriminate].
Qed.

Lemma cell_rectangular {A} (g : list (list A)) h w i j :
  rectangular h w g → (i < h)%nat → (j < w)%nat → is_Some (cell g i j).
Proof.
  intros [Hl Hr] Hi Hj. unfold cell.
  destruct (lookup_lt_is_Some_2 g i) as [row Hrow]; [lia |].
  rewrite Hrow. simpl. apply lookup_lt_is_Some_2.
  rewrite (Forall_lookup_1 _ _ _ _ Hr Hrow). lia.
Qed.

Lemma cell_setCell r i j v i' j' :
  cell (setCell r i j v) i' j' =
  (fun old => if decide (i = i' ∧ j = j') then v else old) <$> cell r i' j'.
Proof.
  unfold cell, setCell.
  destruct (decide (i = i')) as [->|Hi].
  - rewrite list_lookup_alter_eq. destruct (r !! i') as [row|]; simpl; [| done].
    destruct (decide (j = j')) as [->|Hj].
    + destruct (decide (j' < length row)%nat).
      * rewrite list_lookup_insert_eq by done.
        destruct (lookup_lt_is_Some_2 row j') as [a ->]; [done |]. simpl.
        rewrite decide_True; done.
      * rewrite list_insert_ge by lia.
        rewrite (lookup_ge_None_2 row j') by lia. done.
    + rewrite list_lookup_insert_ne by done.
      destruct (row !! j'); simpl; [| done].
      rewrite decide_False; [done | intros [? ?]; congruence].
  - rewrite list_lookup_alter_ne by done.
    destruct (r !! i' ≫= (.!! j')); simpl; [| done].
    rewrite decide_False; [done | intros [? ?]; congruence].
Qed.

Lemma rectangular_setCell h w r i j v :
  rectangular h w r → rectangular h w (setCell r i j v).
Proof.
  intros [Hl Hr]. unfold setCell. split.
  - by rewrite length_alter.
  - apply Forall_alter; [done |]. intros row _ Hrow. by rewrite length_insert.
Qed.

Lemma rectangular_applyWrites h w ws r :
  rectangular h w r → rectangular h w (applyWrites r ws).
Proof.
  unfold applyWrites. revert r.
  induction ws as [|[[i j] v] ws IH]; intros r Hr; simpl; [done |].
  apply IH. by apply rectangular_setCell.
Qed.

(** A cell written by the run, always with the same value, holds that
    value at the end. *)
Lemma cell_applyWrites ws r i j v old :
  cell r i j = Some old →
  (∀ v', (i, j, v') ∈ ws → v' = v) →
  (old = v ∨ ∃ v', (i, j, v') ∈ ws) →
  cell (applyWrites r ws) i j = Some v.
Proof.
  unfold applyWrites. revert r old.
  induction ws as [|[[i0 j0] v0] ws IH]; intros r old Hc Hsame Hin; simpl.
  - destruct Hin as [->|[v' Hv']]; [done |]. by apply elem_of_nil in Hv'.
  - eapply (IH _ (if decide (i0 = i ∧ j0 = j) then v0 else old)).
    + rewrite cell_setCell, Hc. done.
    + intros v' Hv'. apply Hsame. by right.
    + case_decide as Hd.
      * destruct Hd as [-> ->]. left. apply Hsame. by left.
      * destruct Hin as [->|[v' Hv']]; [by left |].
        apply elem_of_cons in Hv' as [Heq|Hv']; [| right; eauto].
        inversion Heq; subst. naive_solver.
Qed.

Lemma foldl_bind {A B C} (f : A → C → A) (g : B → list C) (l : list B) (a : A) :
  foldl f a (l ≫= g) = foldl (fun a b => foldl f a (g b)) a l.
Proof.
  revert a. induction l as [|b l IH]; intros a; simpl; [done |].
  by rewrite foldl_app, IH.
Qed.

Lemma foldl_pointwise {A B} (f g : A → B → A) (l : list B) (a : A) :
  (∀ a b, f a b = g a b) → foldl f a l = foldl g a l.
Proof.
  intros Hfg. revert a. induction l as [|b l IH]; intros a; simpl; [done |].
  by rewrite Hfg, IH.
Qed.

Lemma rotateCW_writes m row0 :
  m !! 0%nat = Some row0 →
  rotateCW m = Some (applyWrites (replicate (length row0) (replicate (length m) 0))
                                 (writesCW m (length m) (length row0))).
Proof.
  intros H0. unfold rotateCW, applyWrites, writesCW. rewrite H0. simpl. f_equal.
  rewrite foldl_bind. apply foldl_pointwise. intros r y.
  rewrite foldl_bind. apply foldl_pointwise. intros r' x. simpl. done.
Qed.

Lemma rotateCCW_writes m row0 :
  m !! 0%nat = Some row0 →
  rotateCCW m = Some (applyWrites (replicate (length row0) (replicate (length m) 0))
                                  (writesCCW m (length m) (length row0))).
Proof.
  intros H0. unfold rotateCCW, applyWrites, writesCCW. rewrite H0. simpl. f_equal.
  rewrite foldl_bind. apply foldl_pointwise. intros r y.
  rewrite foldl_bind. apply foldl_pointwise. intros r' x. simpl. done.
Qed.

Lemma elem_of_writesCW m h w i j v :
  (i, j, v) ∈ writesCW m h w ↔
  ∃ y x, (y < h)%nat ∧ (x < w)%nat ∧ i = x ∧ j = (h - 1 - y)%nat ∧ v = getCell m y x.
Proof.
  unfold writesCW. rewrite list_elem_of_bind. split.
  - intros (y & Hx & Hy). apply list_elem_of_bind in Hx as (x & Hx & Hx').
    apply list_elem_of_singleton in Hx. inversion Hx; subst.
    apply elem_of_seq in Hy, Hx'. exists y, x. repeat split; lia.
  - intros (y & x & Hy & Hx & -> & -> & ->). exists y. split.
    + apply list_elem_of_bind. exists x. split; [by apply list_elem_of_singleton |].
      apply elem_of_seq. lia.
    + apply elem_of_seq. lia.
Qed.

Lemma elem_of_writesCCW m h w i j v :
  (i, j, v) ∈ writesCCW m h w ↔
  ∃ y x, (y < h)%nat ∧ (x < w)%nat ∧ i = (w - 1 - x)%nat ∧ j = y ∧ v = getCell m y x.
Proof.
  unfold writesCCW. rewrite list_elem_of_bind. split.
  - intros (y & Hx & Hy). apply list_elem_of_bind in Hx as (x & Hx & Hx').
    apply list_elem_of_singleton in Hx. inversion Hx; subst.
    apply elem_of_seq in Hy, Hx'. exists y, x. repeat split; lia.
  - intros (y & x & Hy & Hx & -> & -> & ->). exists y. split.
    + apply list_elem_of_bind. exists x. split; [by apply list_elem_of_singleton |].
      apply elem_of_seq. lia.
    + apply elem_of_seq. lia.
Qed.

Lemma rectangular_replicate {A} h w (a : A) :
  rectangular h w (replicate h (replicate w a)).
Proof.
  split; [by rewrite length_replicate |].
  apply Forall_replicate. by rewrite length_replicate.
Qed.

Lemma cell_replicate {A} h w (a : A) i j :
  (i < h)%nat → (j < w)%nat → cell (replicate h (replicate w a)) i j = Some a.
Proof.
  intros Hi Hj. unfold cell. rewrite lookup_replicate_2 by done. simpl.
  by rewrite lookup_replicate_2.
Qed.

Lemma rectangular_head h w m :
  (0 < h)%nat → rectangular h w m → ∃ row0, m !! 0%nat = Some row0 ∧ length row0 = w.
Proof.
  intros Hh [Hl Hr]. destruct m as [|row0 m]; simpl in *; [lia |].
  exists row0. split; [done |]. by inversion Hr.
Qed.

Lemma cell_getCell h w m y x :
  rectangular h w m → (y < h)%nat → (x < w)%nat → cell m y x = Some (getCell m y x).
Proof.
  intros Hr Hy Hx. destruct (cell_rectangular m h w y x Hr Hy Hx) as [a Ha].
  unfold getCell. fold (cell m y x). by rewrite Ha.
Qed.

(** Two grids of one shape with the same cells are the same grid. *)
Lemma rectangular_ext {A} h w (g1 g2 : list (list A)) :
  rectangular h w g1 → rectangular h w g2 →
  (∀ i j, (i < h)%nat → (j < w)%nat → cell g1 i j = cell g2 i j) →
  g1 = g2.
Proof.
  intros [Hl1 Hr1] [Hl2 Hr2] Hc. apply list_eq. intros i.
  destruct (decide (i < h)%nat) as [Hi|Hi].
  - destruct (lookup_lt_is_Some_2 g1 i) as [r1 E1]; [lia |].
    destruct (lookup_lt_is_Some_2 g2 i) as [r2 E2]; [lia |].
    rewrite E1, E2. f_equal.
    assert (length r1 = w) as L1.
    { exact (Forall_lookup_1 _ _ _ _ Hr1 E1). }
    assert (length r2 = w) as L2.
    { exact (Forall_lookup_1 _ _ _ _ Hr2 E2). }
    apply list_eq. intros j. destruct (decide (j < w)%nat) as [Hj|Hj].
    + specialize (Hc i j Hi Hj). unfold cell in Hc. by rewrite E1, E2 in Hc.
    + rewrite !lookup_ge_None_2 by lia. done.
  - rewrite !lookup_ge_None_2 by lia. done.
Qed.

Lemma rotateCW_spec h w m :
  (0 < h)%nat → rectangular h w m →
  ∃ r, rotateCW m = Some r ∧ rectangular w h r ∧
       ∀ y x, (y < h)%nat → (x < w)%nat → cell r x (h - 1 - y) = cell m y x.
Proof.
  intros Hh Hr. destruct (rectangular_head h w m Hh Hr) as (row0 & H0 & Hw).
  pose proof Hr as [Hl _].
  eexists. split; [by apply rotateCW_writes |]. rewrite Hl, Hw. split.
  - apply rectangular_applyWrites, rectangular_replicate.
  - intros y x Hy Hx. rewrite (cell_getCell h w m y x) by done.
    eapply cell_applyWrites.
    + apply cell_replicate; lia.
    + intros v' Hv'. apply elem_of_writesCW in Hv' as (y' & x' & ? & ? & ? & ? & ->).
      f_equal; lia.
    + right. eexists. apply elem_of_writesCW. exists y, x. done.
Qed.

Lemma rotateCCW_spec h w m :
  (0 < h)%nat → rectangular h w m →
  ∃ r, rotateCCW m = Some r ∧ rectangular w h r ∧
       ∀ y x, (y < h)%nat → (x < w)%nat → cell r (w - 1 - x) y = cell m y x.
Proof.
  intros Hh Hr. destruct (rectangular_head h w m Hh Hr) as (row0 & H0 & Hw).
  pose proof Hr as [Hl _].
  eexists. split; [by apply rotateCCW_writes |]. rewrite Hl, Hw. split.
  - apply rectangular_applyWrites, rectangular_replicate.
  - intros y x Hy Hx. rewrite (cell_getCell h w m y x) by done.
    eapply cell_applyWrites.
    + apply cell_replicate; lia.
    + intros v' Hv'. apply elem_of_writesCCW in Hv' as (y' & x' & ? & ? & ? & ? & ->).
      f_equal; lia.
    + right. eexists. apply elem_of_writesCCW. exists y, x. done.
Qed.

End MatrixOps.

(** C9, amended. For every rectangular matrix [m] of [h >= 1] rows and [w]
    columns, [rotateCW m] is the [w] by [h] matrix whose cell [(x, h-1-y)] is
    cell [(y, x)] of [m], [rotateCCW m] is the [w] by [h] matrix whose cell
    [(w-1-x, y)] is cell [(y, x)] of [m], and, when also [w >= 1],
    [rotateCCW (rotateCW m)] is [m] itself. *)
Theorem rotate_rectangular (h w : nat) (m : Matrix) :
  (0 < h)%nat → rectangular h w m →
  (∃ cw, rotateCW m = Some cw ∧ rectangular w h cw ∧
         ∀ y x, (y < h)%nat → (x < w)%nat → cell cw x (h - 1 - y) = cell m y x) ∧
  (∃ ccw, rotateCCW m = Some ccw ∧ rectangular w h ccw ∧
          ∀ y x, (y < h)%nat → (x < w)%nat → cell ccw (w - 1 - x) y = cell m y x) ∧
  ((0 < w)%nat → rotateCW m ≫= rotateCCW = Some m).
Proof.
  intros Hh Hr. split; [by apply rotateCW_spec |]. split; [by apply rotateCCW_spec |].
  intros Hw.
  destruct (rotateCW_spec h w m Hh Hr) as (cw & Ecw & Rcw & Ccw).
  destruct (rotateCCW_spec w h cw Hw Rcw) as (back & Eback & Rback & Cback).
  rewrite Ecw. simpl. rewrite Eback. f_equal.
  apply (rectangular_ext h w); [done | done |].
  intros i j Hi Hj.
  rewrite <- (Ccw i j Hi Hj).
  rewrite <- (Cback j (h - 1 - i)%nat) by lia.
  f_equal. lia.
Qed.

Lemma rotate_rectangular_witness :
  (0 < 2)%nat ∧ rectangular 2 3 [[1; 2; 3]; [4; 5; 6]] ∧
  rotateCW [[1; 2; 3]; [4; 5; 6]] ≫= rotateCCW = Some [[1; 2; 3]; [4; 5; 6]].
Proof.
  assert (Hr : rectangular 2 3 [[1; 2; 3]; [4; 5; 6]]).
  { split; [reflexivity | repeat constructor]. }
  split; [lia |]. split; [exact Hr |].
  destruct (rotate_rectangular 2 3 [[1; 2; 3]; [4; 5; 6]]) as (_ & _ & Hback);
    [lia | exact Hr |].
  apply Hback. lia.
Defined.

(** C9 as stated fails on a matrix with rows but no columns: [rotateCW]
    returns the empty array, on which [rotateCCW] throws at [m[0].length];
    on the empty array [rotateCW] throws itself. *)
Lemma rotate_roundtrip_zero_width :
  rectangular 1 0 ([[]] : Matrix) ∧
  rotateCW [[]] = Some [] ∧ rotateCCW [] = None ∧ rotateCW [] = None ∧
  rotateCW [[]] ≫= rotateCCW ≠ Some [[]].
Proof.
  split; [split; [reflexivity | repeat constructor] |].
  repeat split; try reflexivity. discriminate.
Qed.

(** The seven canonical shapes come back unchanged, cell for cell. *)
Lemma rotate_roundtrip_shapes (k : Tetromino) :
  rotateCW (SHAPES k) ≫= rotateCCW = Some (SHAPES k).
Proof. destruct k; reflexivity. Qed.

(** * Board model: collision *)

Section Collides.
Variables (b : Board) (pos delta : Point.t).

Lemma collidesRow_true (y : Z) (row : list Z) (x : Z) :
  collidesRow b pos delta y row x = true ↔
  ∃ (j : nat) (v : Z), row !! j = Some v ∧ hitsAt b pos delta y (x + Z.of_nat j) v.
Proof.
  revert x. induction row as [|v row IH]; intros x; simpl.
  - split; [discriminate |]. intros (j & v & Hj & _). by rewrite lookup_nil in Hj.
  - assert (Hshift : (∃ (j : nat) (v0 : Z), row !! j = Some v0 ∧ hitsAt b pos delta y (x + 1 + Z.of_nat j) v0)
                     ↔ ∃ (j : nat) (v0 : Z), (v :: row) !! S j = Some v0
                                             ∧ hitsAt b pos delta y (x + Z.of_nat (S j)) v0).
    { split; intros (j & v0 & Hj & Hh); exists j, v0; (split; [exact Hj |]);
        [replace (x + Z.of_nat (S j)) with (x + 1 + Z.of_nat j) by lia
        |replace (x + 1 + Z.of_nat j) with (x + Z.of_nat (S j)) by lia]; exact Hh. }
    assert (Htail : collidesRow b pos delta y row (x + 1) = true ↔
                    ∃ (j : nat) (v0 : Z), (v :: row) !! S j = Some v0
                                          ∧ hitsAt b pos delta y (x + Z.of_nat (S j)) v0).
    { rewrite IH. exact Hshift. }
    assert (Hhead : ¬ hitsAt b pos delta y (x + Z.of_nat 0) v →
                    (∃ (j : nat) (v0 : Z), (v :: row) !! j = Some v0 ∧ hitsAt b pos delta y (x + Z.of_nat j) v0)
                    ↔ ∃ (j : nat) (v0 : Z), (v :: row) !! S j = Some v0
                                            ∧ hitsAt b pos delta y (x + Z.of_nat (S j)) v0).
    { intros Hno. split.
      - intros ([|j] & v0 & Hj & Hh); [| eauto].
        simpl in Hj. inversion Hj; subst. contradiction.
      - intros (j & v0 & Hj & Hh). eauto. }
    assert (Hhit : hitsAt b pos delta y (x + Z.of_nat 0) v →
                   ∃ (j : nat) (v0 : Z), (v :: row) !! j = Some v0 ∧ hitsAt b pos delta y (x + Z.of_nat j) v0).
    { intros Hh. exists 0%nat, v. split; [reflexivity | exact Hh]. }
    unfold hitsAt in Hhead, Hhit. replace (x + Z.of_nat 0) with x in * by lia.
    destruct (Z.eqb_spec v 0) as [Hv|Hv].
    { rewrite Htail. symmetry. apply Hhead. intros [? _]. contradiction. }
    destruct (Z.ltb_spec (Point.y pos + y + Point.y delta) 0) as [Hy|Hy].
    { rewrite Htail. symmetry. apply Hhead. intros (_ & ? & _). lia. }
    destruct (Z.ltb_spec (Point.x pos + x + Point.x delta) 0) as [Hx|Hx]; simpl.
    { split; [intros _; apply Hhit; auto | done]. }
    rewrite Z.geb_leb.
    destruct (Z.leb_spec COLS (Point.x pos + x + Point.x delta)) as [Hx'|Hx']; simpl.
    { split; [intros _; apply Hhit; auto | done]. }
    rewrite Z.geb_leb.
    destruct (Z.leb_spec ROWS (Point.y pos + y + Point.y delta)) as [Hy'|Hy']; simpl.
    { split; [intros _; apply Hhit; auto 6 | done]. }
    destruct (filledAt b _ _) eqn:Hf.
    { split; [intros _; apply Hhit; auto 6 | done]. }
    rewrite Htail. symmetry. apply Hhead. intros (_ & _ & [?|[?|[?|?]]]); first [lia | congruence].
Qed.

Lemma collidesRows_true (rows : Matrix) (y : Z) :
  collidesRows b pos delta rows y = true ↔
  ∃ (i j : nat) (v : Z), cell rows i j = Some v ∧ hitsAt b pos delta (y + Z.of_nat i) (Z.of_nat j) v.
Proof.
  revert y. induction rows as [|row rows IH]; intros y; simpl.
  - split; [discriminate |]. intros (i & j & v & Hc & _).
    unfold cell in Hc. by rewrite lookup_nil in Hc.
  - destruct (collidesRow b pos delta y row 0) eqn:Hrow.
    + split; [intros _ | done]. apply collidesRow_true in Hrow as (j & v & Hj & Hh).
      exists 0%nat, j, v. unfold cell. simpl. split; [exact Hj |].
      replace (y + Z.of_nat 0) with y by lia. exact Hh.
    + rewrite IH. split.
      * intros (i & j & v & Hc & Hh). exists (S i), j, v. split; [exact Hc |].
        replace (y + Z.of_nat (S i)) with (y + 1 + Z.of_nat i) by lia. exact Hh.
      * intros ([|i] & j & v & Hc & Hh).
        { exfalso. assert (collidesRow b pos delta y row 0 = true) as Habs; [| congruence].
          apply collidesRow_true. exists j, v. unfold cell in Hc. simpl in Hc.
          split; [exact Hc |]. replace (y + Z.of_nat 0) with y in Hh by lia. exact Hh. }
        exists i, j, v. split; [exact Hc |].
        replace (y + 1 + Z.of_nat i) with (y + Z.of_nat (S i)) by lia. exact Hh.
Qed.

End Collides.

Lemma collides_true (p : Piece.t) (b : Board) (delta : Point.t) :
  collides p b delta = true ↔ ∃ i j, cellHits p b delta i j.
Proof.
  unfold collides. rewrite collidesRows_true. unfold cellHits, hitsAt, cellX, cellY.
  split.
  - intros (i & j & v & Hc & Hv & Hy & H). exists i, j, v.
    replace (0 + Z.of_nat i) with (Z.of_nat i) in * by lia. done.
  - intros (i & j & v & Hc & Hv & Hy & H). exists i, j, v.
    replace (0 + Z.of_nat i) with (Z.of_nat i) by lia. done.
Qed.

Lemma collides_false (p : Piece.t) (b : Board) (delta : Point.t) :
  collides p b delta = false ↔ ∀ i j, ¬ cellHits p b delta i j.
Proof.
  rewrite <- not_true_iff_false, collides_true. split.
  - intros Hno i j Hh. apply Hno. eauto.
  - intros Hno (i & j & Hh). by apply (Hno i j).
Qed.

(** A piece all of whose filled cells are above row zero collides with
    nothing, also when it hangs over a side wall. *)
Lemma collides_above_top (p : Piece.t) (b : Board) (delta : Point.t) :
  (∀ i j v, cell (Piece.matrix p) i j = Some v → v ≠ 0 → cellY p delta i < 0) →
  collides p b delta = false.
Proof.
  intros Habove. apply collides_false. intros i j (v & Hcell & Hv & Hy & _).
  specialize (Habove i j v Hcell Hv). lia.
Qed.

(** C10. For any piece, board and delta, [collides] is true exactly when
    some filled matrix cell whose board row is zero or more is outside the
    side walls, below the floor or on a filled board cell; so a filled cell
    whose board row is negative never contributes, whatever its column, and
    a piece whose filled cells are all above row zero does not collide. *)
Theorem collides_row_exemption_first (p : Piece.t) (b : Board) (delta : Point.t) :
  (collides p b delta = true ↔ ∃ i j, cellHits p b delta i j) ∧
  ((∀ i j v, cell (Piece.matrix p) i j = Some v → v ≠ 0 → cellY p delta i < 0) →
   collides p b delta = false).
Proof. split; [apply collides_true | apply collides_above_top]. Qed.

Lemma collides_row_exemption_first_witness :
  collides (Piece.mk kT [[0; 0; 0]; [1; 1; 1]; [0; 1; 0]] (Point.mk (-1) (-3)) (COLORS kT))
           createEmptyBoard (Point.mk 0 0) = false.
Proof.
  apply (proj2 (collides_row_exemption_first _ _ _)).
  intros i j v Hc _. unfold cellY. simpl.
  assert (i < 3)%nat; [| lia].
  apply cell_Some_lt in Hc as (row & Hrow & _).
  apply lookup_lt_Some in Hrow. simpl in Hrow. lia.
Defined.

(** A T piece pointing down, one column left of the left wall and with its
    bar one row above the board, does not collide with the empty board. *)
Example collides_overhang :
  collides (Piece.mk kT [[0; 0; 0]; [1; 1; 1]; [0; 1; 0]] (Point.mk (-1) (-2)) (COLORS kT))
           createEmptyBoard (Point.mk 0 0) = false.
Proof. reflexivity. Qed.

(** * Board model: line clearing *)

Section ClearRows.
Implicit Types (b U P : Board) (row : list Cell.t) (e : nat) (c y : Z).

Lemma rowFull_emptyRow : rowFull emptyRow = false.
Proof. reflexivity. Qed.

Lemma fullRows_snoc U row :
  fullRows (U ++ [row]) = (fullRows U + (if rowFull row then 1 else 0))%nat.
Proof.
  unfold fullRows. rewrite filter_app, length_app. f_equal.
  destruct (rowFull row) eqn:E.
  - rewrite filter_cons_True by done. reflexivity.
  - rewrite filter_cons_False by (rewrite E; discriminate). reflexivity.
Qed.

Lemma keptRows_snoc U row :
  keptRows (U ++ [row]) = keptRows U ++ (if rowFull row then [] else [row]).
Proof.
  unfold keptRows. rewrite filter_app. f_equal.
  destruct (rowFull row) eqn:E.
  - rewrite filter_cons_False by (rewrite E; discriminate). reflexivity.
  - rewrite filter_cons_True by done. reflexivity.
Qed.

Lemma clearLoop_step fuel b y c row :
  0 ≤ y → b !! Z.to_nat y = Some row →
  clearLoop (S fuel) b y c =
  if rowFull row
  then clearLoop fuel (emptyRow :: delete (Z.to_nat y) b) y (c + 1)
  else clearLoop fuel b (y - 1) c.
Proof.
  intros Hy Hrow. simpl. destruct (Z.ltb_spec y 0) as [?|_]; [lia |].
  rewrite Hrow. reflexivity.
Qed.

(** Once only the fresh empty rows are left above [y], the loop walks
    over them and changes nothing. *)
Lemma clearLoop_empty_rows (k : nat) fuel e P c :
  (k ≤ e)%nat → (k ≤ fuel)%nat →
  clearLoop fuel (replicate e emptyRow ++ P) (Z.of_nat k - 1) c
  = Some (replicate e emptyRow ++ P, c).
Proof.
  revert fuel. induction k as [|k IH]; intros fuel Hk Hf.
  - destruct fuel; reflexivity.
  - destruct fuel as [|fuel]; [lia |].
    rewrite (clearLoop_step _ _ _ _ emptyRow); [| lia |].
    2:{ replace (Z.to_nat (Z.of_nat (S k) - 1)) with k by lia.
        rewrite lookup_app_l by (rewrite length_replicate; lia).
        apply lookup_replicate_2. lia. }
    rewrite rowFull_emptyRow.
    replace (Z.of_nat (S k) - 1 - 1) with (Z.of_nat k - 1) by lia.
    apply IH; lia.
Qed.

(** The loop at row [y], with [e] fresh rows on top, the rows [U] still to
    visit and the rows [P] already visited and kept. *)
Lemma clearLoop_inv U : ∀ fuel e P c,
  (length U + e + fullRows U ≤ fuel)%nat →
  clearLoop fuel (replicate e emptyRow ++ U ++ P) (Z.of_nat (e + length U) - 1) c
  = Some (replicate (e + fullRows U) emptyRow ++ keptRows U ++ P,
          c + Z.of_nat (fullRows U)).
Proof.
  induction U as [|row U IH] using rev_ind; intros fuel e P c Hf.
  - simpl in *. unfold fullRows, keptRows. simpl.
    rewrite Nat.add_0_r, Z.add_0_r. apply clearLoop_empty_rows; lia.
  - rewrite length_app in *. simpl in *. rewrite fullRows_snoc, keptRows_snoc in *.
    destruct fuel as [|fuel]; [lia |].
    assert (Hidx : Z.to_nat (Z.of_nat (e + (length U + 1)) - 1) = (e + length U)%nat) by lia.
    assert (Hlook : (replicate e emptyRow ++ (U ++ [row]) ++ P) !! (e + length U)%nat
                    = Some row).
    { rewrite lookup_app_r by (rewrite length_replicate; lia).
      rewrite length_replicate. replace (e + length U - e)%nat with (length U) by lia.
      rewrite <- app_assoc. rewrite lookup_app_r by lia.
      replace (length U - length U)%nat with 0%nat by lia. reflexivity. }
    rewrite (clearLoop_step _ _ _ _ row); [| lia | by rewrite Hidx].
    rewrite Hidx.
    assert (Hdel : delete (e + length U)%nat (replicate e emptyRow ++ (U ++ [row]) ++ P)
                   = replicate e emptyRow ++ U ++ P).
    { rewrite <- (app_assoc U), (app_assoc (replicate e emptyRow) U). simpl.
      replace (e + length U)%nat with (length (replicate e emptyRow ++ U))
        by (rewrite length_app, length_replicate; lia).
      rewrite delete_middle. by rewrite <- app_assoc. }
    destruct (rowFull row) eqn:Hfull.
    + rewrite Hdel.
      change (emptyRow :: replicate e emptyRow ++ U ++ P)
        with (replicate (S e) emptyRow ++ U ++ P).
      replace (Z.of_nat (e + (length U + 1)) - 1) with (Z.of_nat (S e + length U) - 1) by lia.
      rewrite IH by lia. rewrite app_nil_r. f_equal. f_equal; [| lia].
      f_equal. f_equal. lia.
    + replace (Z.of_nat (e + (length U + 1)) - 1 - 1) with (Z.of_nat (e + length U) - 1) by lia.
      rewrite <- (app_assoc U [row] P). simpl.
      rewrite IH by lia. rewrite Nat.add_0_r, <- (app_assoc (keptRows U)). reflexivity.
Qed.

Lemma fullRows_le b : (fullRows b ≤ length b)%nat.
Proof. unfold fullRows. apply length_filter. Qed.

Lemma clearRows_result b :
  length b = Z.to_nat ROWS →
  clearRows b = Some (replicate (fullRows b) emptyRow ++ keptRows b, Z.of_nat (fullRows b)).
Proof.
  intros Hl. unfold clearRows.
  assert (Hfuel : (length b + 0 + fullRows b ≤ Z.to_nat (2 * ROWS))%nat).
  { pose proof (fullRows_le b) as Hle. rewrite Hl in *.
    change (Z.to_nat (2 * ROWS)) with 40%nat. change (Z.to_nat ROWS) with 20%nat in *. lia. }
  pose proof (clearLoop_inv b (Z.to_nat (2 * ROWS)) 0%nat [] 0 Hfuel) as H.
  rewrite !app_nil_r in H.
  replace (ROWS - 1) with (Z.of_nat (length b) - 1) by (rewrite Hl; reflexivity).
  exact H.
Qed.

Lemma keptRows_all b : fullRows b = 0%nat → keptRows b = b.
Proof.
  unfold fullRows, keptRows. induction b as [|row b IH]; [done |].
  destruct (rowFull row) eqn:E.
  - rewrite filter_cons_True by done. discriminate.
  - rewrite filter_cons_False by (rewrite E; discriminate).
    rewrite filter_cons_True by done. intros H. f_equal. by apply IH.
Qed.

End ClearRows.

Lemma rowFull_every (row : list Cell.t) : rowFull row = true ↔ everyCellFilled row.
Proof.
  unfold rowFull, everyCellFilled. induction row as [|c row IH]; simpl.
  - split; [constructor | done].
  - rewrite andb_true_iff, IH. split.
    + intros [Hc Hrow]. by constructor.
    + intros H. by inversion H.
Qed.

Lemma rowFull_not_every (row : list Cell.t) : rowFull row = false ↔ ¬ everyCellFilled row.
Proof. rewrite <- rowFull_every. by destruct (rowFull row). Qed.

Lemma filter_full_every (b : Board) :
  filter (fun row => rowFull row = true) b = filter everyCellFilled b.
Proof.
  induction b as [|row b IH]; [done |].
  destruct (decide (everyCellFilled row)) as [Hy|Hn].
  - rewrite (filter_cons_True everyCellFilled) by done.
    rewrite filter_cons_True by (by apply rowFull_every). by rewrite IH.
  - rewrite (filter_cons_False everyCellFilled) by done.
    rewrite filter_cons_False by (by rewrite rowFull_every). exact IH.
Qed.

Lemma filter_kept_not_every (b : Board) :
  filter (fun row => rowFull row = false) b = filter (fun row => ¬ everyCellFilled row) b.
Proof.
  induction b as [|row b IH]; [done |].
  destruct (decide (everyCellFilled row)) as [Hy|Hn].
  - rewrite (filter_cons_False (fun row => ¬ everyCellFilled row)) by tauto.
    rewrite filter_cons_False by (rewrite rowFull_not_every; tauto). exact IH.
  - rewrite (filter_cons_True (fun row => ¬ everyCellFilled row)) by done.
    rewrite filter_cons_True by (by apply rowFull_not_every). by rewrite IH.
Qed.

(** C8. For every board (of [ROWS] rows), the row loop of [clearLines]
    returns the rows in which not every cell is filled, in their order, under
    one new row of [COLS] unfilled cells for each row in which every cell is
    filled, and counts the rows in which every cell is filled, however many
    there are; on a board without such a row it counts none and returns the
    board itself. *)
Theorem clearRows_removes_full_rows (b : Board) :
  length b = Z.to_nat ROWS →
  clearRows b =
    Some (replicate (length (filter everyCellFilled b)) emptyRow
            ++ filter (fun row => ¬ everyCellFilled row) b,
          Z.of_nat (length (filter everyCellFilled b))) ∧
  (Forall (fun row => ¬ everyCellFilled row) b → clearRows b = Some (b, 0)) ∧
  length emptyRow = Z.to_nat COLS ∧ Forall (fun c => Cell.filled c = false) emptyRow.
Proof.
  intros Hl.
  assert (Hres : clearRows b =
                 Some (replicate (length (filter everyCellFilled b)) emptyRow
                         ++ filter (fun row => ¬ everyCellFilled row) b,
                       Z.of_nat (length (filter everyCellFilled b)))).
  { rewrite clearRows_result by done. unfold fullRows, keptRows.
    by rewrite filter_full_every, filter_kept_not_every. }
  split; [exact Hres |]. split; [| split; [reflexivity | by apply Forall_replicate]].
  intros Hnone. rewrite Hres.
  assert (Hkeep : filter (fun row => ¬ everyCellFilled row) b = b).
  { clear Hl Hres. induction Hnone as [|row b Hrow _ IH]; [done |].
    rewrite filter_cons_True by done. by rewrite IH. }
  assert (Hzero : filter everyCellFilled b = []).
  { clear Hl Hres Hkeep. induction Hnone as [|row b Hrow _ IH]; [done |].
    by rewrite filter_cons_False by done. }
  by rewrite Hkeep, Hzero.
Qed.

Lemma clearRows_removes_full_rows_witness :
  length stripedBoard = Z.to_nat ROWS ∧
  filter everyCellFilled stripedBoard =
    [rowOf [1; 1; 1; 1; 1; 1; 1; 1; 1; 1]; rowOf [1; 1; 1; 1; 1; 1; 1; 1; 1; 1]] ∧
  clearRows stripedBoard = Some (boardOf [[1; 0; 0; 0; 0; 0; 0; 0; 0; 0]], 2).
Proof.
  split; [reflexivity |]. split; [reflexivity |].
  rewrite (proj1 (clearRows_removes_full_rows stripedBoard eq_refl)).
  reflexivity.
Defined.

(** * Spawn *)

Section Spawn.
Variable rnd : nat → nat.

Lemma length_swap {A} (l : list A) (i j : nat) : length (swap l i j) = length l.
Proof.
  unfold swap. destruct (l !! i), (l !! j); try done.
  by rewrite !length_insert.
Qed.

Lemma length_shuffle {A} (i : nat) (bag : list A) : length (shuffle rnd i bag) = length bag.
Proof.
  revert bag. induction i as [|i IH]; intros bag; simpl; [done |].
  by rewrite IH, length_swap.
Qed.

Lemma length_newBag : length (newBag rnd) = 7%nat.
Proof. unfold newBag. by rewrite length_shuffle. Qed.

Lemma refill_nonempty (queue : list Tetromino) : ∃ k rest, refill rnd queue = k :: rest.
Proof.
  unfold refill. destruct (Nat.leb_spec (length queue) 2) as [Hle|Hgt].
  - pose proof length_newBag as Hb.
    destruct (queue ++ newBag rnd) as [|k rest] eqn:E; [| eauto].
    apply (f_equal length) in E. rewrite length_app, Hb in E. simpl in E. lia.
  - destruct queue as [|k rest]; [simpl in Hgt; lia | eauto].
Qed.

Lemma spawn_unfold (s : State) (k : Tetromino) (rest : list Tetromino) :
  refill rnd (next s) = k :: rest →
  spawn rnd s =
  Some (if collides (spawnPiece k) (board s) origin
        then setRunning false (setNext rest s)
        else setCur (Some (spawnPiece k)) (setNext rest s)).
Proof.
  unfold refill, spawn, origin. intros ->. simpl.
  by destruct (collides (spawnPiece k) (board s) (Point.mk 0 0)).
Qed.

End Spawn.

(** C6. For every board and queue [spawn] returns. The piece it creates is
    the canonical shape of the head of the (refilled) queue. If that piece
    collides with the board at zero delta, [running] becomes false and the
    active-piece slot is not assigned; otherwise the piece becomes the
    active piece and does not collide with the board at zero delta after
    [spawn]. Board and score are the same before and after in both cases. *)
Theorem spawn_contract (rnd : nat → nat) (s : State) :
  ∃ s' k rest,
    spawn rnd s = Some s' ∧ refill rnd (next s) = k :: rest ∧
    board s' = board s ∧ score s' = score s ∧
    (collides (spawnPiece k) (board s) origin = true →
       running s' = false ∧ cur s' = cur s) ∧
    (collides (spawnPiece k) (board s) origin = false →
       cur s' = Some (spawnPiece k) ∧ running s' = running s ∧
       collides (spawnPiece k) (board s') origin = false).
Proof.
  destruct (refill_nonempty rnd (next s)) as (k & rest & Hq).
  eexists _, k, rest. split; [by apply spawn_unfold |]. split; [done |].
  destruct (collides (spawnPiece k) (board s) origin) eqn:Hc; simpl.
  - repeat split; done.
  - repeat split; try done.
Qed.

(** * Rotate *)

Section Rotate.
Variables (p : Piece.t) (m : Matrix) (s : State).

(** The state [rotate] leaves when it takes offset [k]. *)
Lemma tryKicks_first (ks : list Z) (i : nat) (k : Z) :
  ks !! i = Some k →
  collides (trialAt p m k) (board s) origin = false →
  (∀ j k', (j < i)%nat → ks !! j = Some k' →
           collides (trialAt p m k') (board s) origin = true) →
  tryKicks ks p m s =
  setLastAction ActRotate
    (setRotatedWithKick (negb (k =? 0)) (setCur (Some (trialAt p m k)) s)).
Proof.
  revert i. induction ks as [|k0 ks IH]; intros i Hi Hfree Hbefore; [done |].
  simpl. fold (trialAt p m k0). fold origin.
  destruct i as [|i]; simpl in Hi.
  - inversion Hi; subst. rewrite Hfree. reflexivity.
  - rewrite (Hbefore 0%nat k0); [| lia | done]. simpl.
    apply (IH i); [done | done |].
    intros j k' Hj Hk'. apply (Hbefore (S j)); [lia | done].
Qed.

Lemma tryKicks_none (ks : list Z) :
  (∀ k, k ∈ ks → collides (trialAt p m k) (board s) origin = true) →
  tryKicks ks p m s = s.
Proof.
  induction ks as [|k0 ks IH]; intros Hall; [done |].
  simpl. fold (trialAt p m k0). fold origin.
  rewrite Hall by (by left). simpl. apply IH. intros k Hk. apply Hall. by right.
Qed.

End Rotate.

(** C7. With a piece in play (running, not paused) whose matrix rotates to
    [m], [rotate] tries the offsets 0, -1, +1, -2, +2 in that order against
    [m] at the piece's row. The first offset [k] that does not collide is
    taken: the active piece gets matrix [m] and its column moved by [k] (same
    row, kind and colour), the kick flag becomes [k <> 0], the last action
    becomes rotate, and every other field keeps its value. If every offset
    collides, the state is returned as it was. *)
Theorem rotate_kick_search (ccw : bool) (s : State) (p : Piece.t) (m : Matrix) :
  cur s = Some p → running s = true → paused s = false →
  (if ccw then rotateCCW (Piece.matrix p) else rotateCW (Piece.matrix p)) = Some m →
  kicks = [0; -1; 1; -2; 2] ∧
  (∀ i k, kicks !! i = Some k →
     collides (trialAt p m k) (board s) origin = false →
     (∀ j k', (j < i)%nat → kicks !! j = Some k' →
              collides (trialAt p m k') (board s) origin = true) →
     ∃ s', rotate ccw s = Some s' ∧
           cur s' = Some (Piece.mk (Piece.kind p) m
                                   (Point.mk (Point.x (Piece.pos p) + k) (Point.y (Piece.pos p)))
                                   (Piece.color p)) ∧
           rotatedWithKick s' = negb (k =? 0) ∧ lastAction s' = ActRotate ∧
           board s' = board s ∧ next s' = next s ∧ gravityMs s' = gravityMs s ∧
           b2b s' = b2b s ∧ score s' = score s ∧ lines s' = lines s ∧ level s' = level s ∧
           countdown s' = countdown s ∧ seenChallenges s' = seenChallenges s ∧
           challenge s' = challenge s ∧ running s' = running s ∧ paused s' = paused s ∧
           timers s' = timers s) ∧
  ((∀ k, k ∈ kicks → collides (trialAt p m k) (board s) origin = true) →
   rotate ccw s = Some s).
Proof.
  intros Hcur Hrun Hpause Hrot. split; [reflexivity |].
  assert (Hunfold : rotate ccw s = Some (tryKicks kicks p m s)).
  { unfold rotate. rewrite Hcur, Hrun, Hpause. simpl. by rewrite Hrot. }
  rewrite Hunfold. split.
  - intros i k Hi Hfree Hbefore.
    rewrite (tryKicks_first p m s kicks i k Hi Hfree Hbefore).
    eexists. split; [reflexivity |]. repeat split; reflexivity.
  - intros Hall. f_equal. by apply tryKicks_none.
Qed.

Lemma rotate_kick_search_witness :
  cur wallState = Some (Piece.mk kT [[0; 1; 0]; [0; 1; 1]; [0; 1; 0]] (Point.mk (-1) 5) (COLORS kT)) ∧
  running wallState = true ∧ paused wallState = false ∧
  ∃ s', rotate false wallState = Some s' ∧
        cur s' = Some (Piece.mk kT [[0; 0; 0]; [1; 1; 1]; [0; 1; 0]] (Point.mk 0 5) (COLORS kT)) ∧
        rotatedWithKick s' = true ∧ lastAction s' = ActRotate ∧
        board s' = createEmptyBoard ∧ score s' = 0.
Proof.
  split; [reflexivity |]. split; [reflexivity |]. split; [reflexivity |].
  pose proof (rotate_kick_search false wallState
                (Piece.mk kT [[0; 1; 0]; [0; 1; 1]; [0; 1; 0]] (Point.mk (-1) 5) (COLORS kT))
                [[0; 0; 0]; [1; 1; 1]; [0; 1; 0]] eq_refl eq_refl eq_refl eq_refl)
    as (_ & Hfirst & _).
  destruct (Hfirst 2%nat 1) as (s' & E & Hc & Hk & Hl & Hb & _ & _ & _ & Hs & _).
  - reflexivity.
  - reflexivity.
  - intros j k' Hj Hk'. destruct j as [|[|j]]; [| | lia]; inversion Hk'; reflexivity.
  - exists s'. split; [exact E |]. split; [exact Hc |]. split; [exact Hk |].
    split; [exact Hl |]. split; [exact Hb | exact Hs].
Defined.

(** * Move, drop, rotate when the game is stopped *)

Lemma setBoard_same (s : State) : setBoard (board s) s = s.
Proof. by destruct s. Qed.

(** C4, amended. While paused, [move], [softDrop], [hardDrop] and [rotate]
    return the state as it is. While not running (and not paused) [rotate]
    does so too; [move], [softDrop] and [hardDrop] change nothing but the
    last-action record, which they set to move, soft and hard. *)
Theorem stopped_ops (v : Variant) (rnd : nat → nat) (dx : Z) (ccw : bool) (s : State) :
  (paused s = true →
     move v dx s = s ∧ softDrop v rnd s = Some s ∧
     hardDrop v rnd s = Some s ∧ rotate ccw s = Some s) ∧
  (running s = false → paused s = false →
     rotate ccw s = Some s ∧
     move v dx s = setLastAction ActMove s ∧
     softDrop v rnd s = Some (setLastAction ActSoft s) ∧
     hardDrop v rnd s = Some (setLastAction ActHard s)).
Proof.
  split.
  - intros Hp. unfold move, softDrop, hardDrop, rotate. rewrite Hp.
    repeat split; try reflexivity.
    destruct (cur s); [| reflexivity]. by rewrite orb_true_r.
  - intros Hr Hp. unfold move, softDrop, hardDrop, rotate. rewrite Hp. simpl.
    rewrite Hr. simpl. destruct (cur s); repeat split; reflexivity.
Qed.

Lemma stopped_ops_witness :
  running stoppedState = false ∧ paused stoppedState = false ∧
  move GameClient (-1) stoppedState = setLastAction ActMove stoppedState.
Proof.
  split; [reflexivity |]. split; [reflexivity |].
  apply (proj2 (stopped_ops GameClient noDraw (-1) false stoppedState)); reflexivity.
Defined.

(** C4 as stated fails once the game is over: the three operations that
    record their action before looking at [running] overwrite the last
    action. *)
Lemma stopped_ops_touch_last_action :
  running stoppedState = false ∧ lastAction stoppedState = ActRotate ∧
  lastAction (move GameClient (-1) stoppedState) = ActMove ∧
  (lastAction <$> softDrop GameClient noDraw stoppedState) = Some ActSoft ∧
  (lastAction <$> hardDrop GameClient noDraw stoppedState) = Some ActHard ∧
  move GameClient (-1) stoppedState ≠ stoppedState.
Proof. repeat split; try reflexivity. discriminate. Qed.

(** * clearLines: scoring, progression and the challenge trigger *)

Section ClearLines.
Variables (v : Variant) (s : State) (b' : Board) (cleared : Z) (p : Piece.t).
Hypothesis Hrows : clearRows (board s) = Some (b', cleared).

Lemma clearLines_nothing : cleared = 0 → clearLines v s = Some (setBoard b' s).
Proof. intros ->. unfold clearLines. rewrite Hrows. reflexivity. Qed.

Hypothesis Hpos : 0 < cleared.
Hypothesis Hcur : cur s = Some p.

Lemma clearLines_scored :
  clearLines v s =
  Some (setLastAction ActNone
          (setRotatedWithKick false
             match v with
             | GameClient => startChallenge (updateLevel v (lines s + cleared)) (scored v s b' cleared p)
             | ClassicPage => scored v s b' cleared p
             end)).
Proof.
  unfold clearLines, scored. rewrite Hrows. simpl.
  destruct (Z.gtb_spec cleared 0) as [_|?]; [| lia].
  rewrite Hcur. simpl.
  destruct (clearScore cleared _ (level s) (b2b s) (isPerfectClear b')) as [gained b2b'].
  reflexivity.
Qed.

End ClearLines.

(** C3, amended. In the game page, a lock that clears at least one row
    starts the countdown exactly when the recomputed level
    [1 + (lines + cleared) / 5] is even, whether or not that level differs
    from the one before; the challenge it schedules is reverse when the level
    is divisible by 4 and speed otherwise, with a countdown of 3 when that
    type was seen before and 5 when not. When the level is odd nothing of the
    challenge state changes. *)
Theorem challenge_starts_on_even_level (s : State) (b' : Board) (cleared : Z) (p : Piece.t) :
  clearRows (board s) = Some (b', cleared) → 0 < cleared → cur s = Some p →
  ∃ s', clearLines GameClient s = Some s' ∧
    let newLevel := 1 + (lines s + cleared) `div` 5 in
    let seen := bool_decide ((if newLevel `mod` 4 =? 0 then Reverse else Speed) ∈ seenChallenges s) in
    level s' = newLevel ∧
    (newLevel `mod` 2 = 0 →
       paused s' = true ∧
       countdown s' = Some (if seen then 3 else 5) ∧
       timers s' = timers s ++
         [CountdownInterval
            (Challenge.mk (if newLevel `mod` 4 =? 0 then Reverse else Speed) 30000 None)
            (negb seen);
          ChallengeReset (30000 + (if seen then 3000 else 5000))]) ∧
    (newLevel `mod` 2 ≠ 0 →
       paused s' = paused s ∧ countdown s' = countdown s ∧ timers s' = timers s).
Proof.
  intros Hrows Hpos Hcur. eexists. split; [by apply (clearLines_scored GameClient s b' cleared p) |].
  simpl. unfold startChallenge, challengeTypeFor, updateLevel. simpl.
  destruct (Z.eqb_spec ((1 + (lines s + cleared) `div` 5) `mod` 2) 0) as [He|Ho].
  - split; [reflexivity |]. split; [| done]. intros _. simpl.
    destruct (bool_decide _); repeat split; reflexivity.
  - split; [reflexivity |]. split; [done |]. intros _. repeat split; reflexivity.
Qed.

Lemma challenge_starts_on_even_level_witness :
  ∃ s', clearLines GameClient
          (setBoard (boardOf [[1; 1; 1; 1; 1; 1; 1; 1; 1; 1]]) levelTwoState) = Some s' ∧
        level s' = 2 ∧ paused s' = true ∧ countdown s' = Some 3.
Proof.
  destruct (challenge_starts_on_even_level
              (setBoard (boardOf [[1; 1; 1; 1; 1; 1; 1; 1; 1; 1]]) levelTwoState)
              createEmptyBoard 1
              (Piece.mk kI (SHAPES kI) (Point.mk 0 18) (COLORS kI))
              eq_refl eq_refl eq_refl)
    as (s' & Hs' & Hlevel & Heven & _).
  exists s'. split; [exact Hs' |]. split; [exact Hlevel |].
  destruct (Heven eq_refl) as (Hp & Hc & _). split; [exact Hp | exact Hc].
Defined.

(** C3 as stated fails at level 2 with five lines made: the sixth line
    leaves the level at 2 and still pauses the game and starts a countdown. *)
Lemma countdown_restarts_at_same_level :
  level levelTwoState = 2 ∧ paused levelTwoState = false ∧ timers levelTwoState = [] ∧
  ∃ s', softDrop GameClient noDraw levelTwoState = Some s' ∧
        lines s' = 6 ∧ level s' = 2 ∧ paused s' = true ∧ countdown s' = Some 3 ∧
        timers s' = [CountdownInterval (Challenge.mk Speed 30000 None) false;
                     ChallengeReset 33000].
Proof.
  split; [reflexivity |]. split; [reflexivity |]. split; [reflexivity |].
  eexists. split; [vm_compute; reflexivity |]. repeat split; reflexivity.
Qed.

(** * Scoring *)

Lemma clearScore_perfect_tetris (tspin : TSpin) (lvl : Z) (b2b0 : bool) :
  clearScore 4 tspin lvl b2b0 true =
  ((if b2b0 then round15 (basePoints 4 tspin lvl) else basePoints 4 tspin lvl) + 2000 + 1200,
   true).
Proof. unfold clearScore, basePoints. destruct tspin, b2b0; reflexivity. Qed.

(** C2: what the code does at a perfect clear of four rows. The extra 1200
    is added whatever the flag carried in, because the flag is overwritten
    with the eligibility of the event (true for four rows) before it is read.
    Locking the upright I in [wellState], where the carried flag is false,
    gives 800 + 10 + 2000 + 1200 = 4010 in both pages; [updateScore] of the
    hook, which reads the flag it is passed, gives 2810. *)
Theorem perfect_tetris_extra_ignores_carried_flag :
  (∀ tspin lvl, (clearScore 4 tspin lvl false true).1 = basePoints 4 tspin lvl + 2000 + 1200) ∧
  b2b wellState = false ∧
  (∀ v, ∃ s', softDrop v noDraw wellState = Some s' ∧
              lines s' = 4 ∧ isPerfectClear (board s') = true ∧
              score s' = score wellState + 4010 ∧ b2b s' = true) ∧
  updateScore 4 1 false false true = 2810.
Proof.
  split; [intros tspin lvl; by rewrite clearScore_perfect_tetris |].
  split; [reflexivity |]. split; [| reflexivity].
  intros v. eexists. split; [destruct v; vm_compute; reflexivity |].
  destruct v; repeat split; reflexivity.
Qed.

(** After any perfect clear the flag left in [b2bRef] is true. *)
Lemma clearScore_perfect_b2b (cleared : Z) (tspin : TSpin) (lvl : Z) (b2b0 : bool) :
  (clearScore cleared tspin lvl b2b0 true).2 = true.
Proof. reflexivity. Qed.

Section Lock.
Variables (v : Variant) (rnd : nat → nat).

Lemma spawn_frame (s : State) :
  ∃ s', spawn rnd s = Some s' ∧ board s' = board s ∧ score s' = score s ∧
        lines s' = lines s ∧ level s' = level s ∧ b2b s' = b2b s ∧
        lastAction s' = lastAction s ∧ rotatedWithKick s' = rotatedWithKick s ∧
        paused s' = paused s ∧ countdown s' = countdown s ∧ timers s' = timers s.
Proof.
  destruct (refill_nonempty rnd (next s)) as (k & rest & Hq).
  eexists. split; [by apply spawn_unfold |].
  destruct (collides (spawnPiece k) (board s) origin); repeat split; reflexivity.
Qed.

Lemma lock_nothing_cleared (p : Piece.t) (s : State) (b' : Board) :
  merge p (board s) = Some b' → length b' = Z.to_nat ROWS → fullRows b' = 0%nat →
  ∃ s', lock v rnd p s = Some s' ∧ board s' = b' ∧ score s' = score s ∧
        lines s' = lines s ∧ level s' = level s ∧ b2b s' = b2b s ∧
        lastAction s' = lastAction s.
Proof.
  intros Hm Hl H0. unfold lock. rewrite Hm. simpl.
  assert (Hrows : clearRows (board (setBoard b' s)) = Some (b', 0)).
  { simpl. rewrite clearRows_result by done. rewrite H0. simpl. by rewrite keptRows_all. }
  rewrite (clearLines_nothing v _ b' 0 Hrows eq_refl). simpl.
  destruct (spawn_frame (setBoard b' (setBoard b' s)))
    as (s' & -> & Hb & Hs & Hli & Hle & Hb2 & Hla & _).
  exists s'. repeat split; done.
Qed.

End Lock.

(** C5: what the code does for a T-spin without a cleared row. The one
    function that accepts such an event is [updateScore] of [useGameLogic]
    ([cleared = 0], [isTSpin = true]); the page never classifies a lock as a
    T-spin and scores nothing when no row is cleared. [updateScore] looks the
    row count up in the mini table first, so it pays the mini 100 also for a
    full T-spin (the 400 of the full table is never reached), and it adds the
    level bonus without asking whether a row was cleared: at level 1 it
    returns 110. *)
Theorem updateScore_tspin_without_rows :
  tMiniBase 0 = Some 100 ∧ tFullBase 0 = Some 400 ∧
  (∀ lvl isB2B pc,
     updateScore 0 lvl true isB2B pc =
     if isB2B then round15 (100 + lvl * 10) else 100 + lvl * 10) ∧
  updateScore 0 1 true false false = 110.
Proof.
  split; [reflexivity |]. split; [reflexivity |]. split; [| reflexivity].
  intros lvl isB2B pc. unfold updateScore. simpl. destruct isB2B, pc; simpl; lia.
Qed.

(** * T-spin detection at lock time *)

Lemma isTSpin_full_or_mini (s : State) (p : Piece.t) :
  isTSpin s p ≠ TNone ↔
  Piece.kind p = kT ∧ lastAction s = ActRotate ∧ 3 ≤ blockedCorners (board s) p.
Proof.
  unfold isTSpin. repeat case_bool_decide; simpl.
  - destruct (Z.geb_spec (blockedCorners (board s) p) 3), (rotatedWithKick s);
      split; try done; try (intros (_ & _ & ?); lia).
  - split; [done | intros (_ & ? & _); done].
  - split; [done | intros (? & _); done].
  - split; [done | intros (? & _); done].
Qed.

(** The points [lock] adds when it clears rows: the classification is taken
    on the board left by the merge and the row loop. *)
Lemma lock_score (v : Variant) (rnd : nat → nat) (p : Piece.t) (s : State)
    (bm b' : Board) (cleared : Z) :
  merge p (board s) = Some bm → clearRows bm = Some (b', cleared) → 0 < cleared →
  cur s = Some p →
  ∃ s', lock v rnd p s = Some s' ∧
        score s' = score s +
          (clearScore cleared (isTSpin (setBoard b' s) p) (level s) (b2b s)
                      (isPerfectClear b')).1.
Proof.
  intros Hm Hrows Hpos Hcur. unfold lock. rewrite Hm. simpl.
  rewrite (clearLines_scored v (setBoard bm s) b' cleared p Hrows Hpos Hcur). simpl.
  match goal with |- ∃ s', spawn rnd ?t = Some s' ∧ _ =>
    destruct (spawn_frame rnd t) as (s' & -> & _ & Hs & _) end.
  exists s'. split; [done |]. rewrite Hs. destruct v; simpl.
  - unfold startChallenge. destruct (_ =? 0); reflexivity.
  - reflexivity.
Qed.

(** * Further properties: progression and scoring *)

(** X12. the gravity period stays between 120 and 800 ms from level 1 on,
    never grows with the level, and sits at 120 from level 7 (game page) or
    13 (sibling page) on. *)
Theorem calculateSpeed_bounds (v : Variant) (lvl lvl' : Z) :
  1 ≤ lvl → lvl ≤ lvl' →
  120 ≤ calculateSpeed v lvl ≤ 800 ∧
  calculateSpeed v lvl' ≤ calculateSpeed v lvl ∧
  ((match v with GameClient => 7 | ClassicPage => 13 end) ≤ lvl → calculateSpeed v lvl = 120).
Proof.
  intros H1 Hle. unfold calculateSpeed, gravityStep. destruct v; lia.
Qed.

Lemma calculateSpeed_bounds_witness :
  1 ≤ 3 ∧ 3 ≤ 9 ∧ calculateSpeed GameClient 9 ≤ calculateSpeed GameClient 3.
Proof.
  split; [lia |]. split; [lia |].
  apply (proj1 (proj2 (calculateSpeed_bounds GameClient 3 9 ltac:(lia) ltac:(lia)))).
Defined.

Lemma updateLevel_pos (v : Variant) (n : Z) : 0 ≤ n → 1 ≤ updateLevel v n.
Proof.
  intros Hn. unfold updateLevel, linesPerLevel.
  destruct v; pose proof (Z.div_pos n 5); pose proof (Z.div_pos n 10); lia.
Qed.

Lemma round15_ge (g : Z) : 0 ≤ g → g ≤ round15 g.
Proof. intros Hg. unfold round15. apply Z.div_le_lower_bound; lia. Qed.

Lemma table_nonneg (t : Z → option Z) (c : Z) :
  t = normalBase ∨ t = tMiniBase ∨ t = tFullBase ∨ t = pcBonus → 0 ≤ default 0 (t c).
Proof.
  intros [-> | [-> | [-> | ->]]]; unfold normalBase, tMiniBase, tFullBase, pcBonus;
    (destruct c as [|q|q]; simpl; try lia;
     do 4 (try (destruct q as [q|q|]; simpl; try lia))).
Qed.

Lemma basePoints_nonneg (c : Z) (t : TSpin) (lvl : Z) : 0 ≤ lvl → 0 ≤ basePoints c t lvl.
Proof.
  intros Hl. unfold basePoints.
  assert (0 ≤ default 0 (match t with
                         | TNone => normalBase c | TMini => tMiniBase c | TFull => tFullBase c
                         end)); [| lia].
  destruct t; apply table_nonneg; auto.
Qed.

(** The points of a clear event, spelled out: base, back-to-back factor,
    perfect-clear bonus. *)
Lemma clearScore_value (c : Z) (t : TSpin) (lvl : Z) (b2b0 pc : bool) :
  let eligible := (c =? 4) || (negb (bool_decide (t = TNone)) && (c >? 0)) in
  let g := if eligible && b2b0 then round15 (basePoints c t lvl) else basePoints c t lvl in
  clearScore c t lvl b2b0 pc =
  if pc then (g + default 0 (pcBonus c) + (if c =? 4 then 1200 else 0), true)
  else (g, eligible).
Proof.
  unfold clearScore, basePoints. simpl.
  destruct t, pc, b2b0, (c =? 4) eqn:E4, (c >? 0); simpl; try reflexivity;
    rewrite ?Z.add_0_r; reflexivity.
Qed.

Lemma clearScore_nonneg (c : Z) (t : TSpin) (lvl : Z) (b2b0 pc : bool) :
  0 ≤ lvl → 0 ≤ (clearScore c t lvl b2b0 pc).1.
Proof.
  intros Hl. pose proof (clearScore_value c t lvl b2b0 pc) as H. simpl in H. rewrite H.
  pose proof (basePoints_nonneg c t lvl Hl) as Hb.
  pose proof (round15_ge _ Hb) as Hr.
  assert (Hp : 0 ≤ default 0 (pcBonus c)) by (apply table_nonneg; auto).
  destruct pc; simpl.
  - destruct (_ && b2b0), (c =? 4); simpl; lia.
  - destruct (_ && b2b0); simpl; lia.
Qed.


(** * Further properties: the bag *)

Lemma swap_Permutation {A} (l : list A) (i j : nat) : swap l i j ≡ₚ l.
Proof.
  unfold swap. destruct (l !! i) as [a|] eqn:Ei; [| done].
  destruct (l !! j) as [b|] eqn:Ej; [| done].
  by apply Permutation_insert_swap.
Qed.

Lemma shuffle_Permutation {A} (rnd : nat → nat) (i : nat) (bag : list A) :
  shuffle rnd i bag ≡ₚ bag.
Proof.
  revert bag. induction i as [|i IH]; intros bag; simpl; [done |].
  rewrite IH. apply swap_Permutation.
Qed.

(** X1. whatever the draws, a bag holds each of the seven kinds exactly
    once. *)
Theorem newBag_permutation (rnd : nat → nat) :
  newBag rnd ≡ₚ [kI; kJ; kL; kO; kS; kT; kZ] ∧
  NoDup (newBag rnd) ∧ ∀ k : Tetromino, k ∈ newBag rnd.
Proof.
  assert (Hp : newBag rnd ≡ₚ [kI; kJ; kL; kO; kS; kT; kZ]) by apply shuffle_Permutation.
  split; [exact Hp |]. split.
  - rewrite Hp. apply (bool_decide_unpack _). vm_compute. exact I.
  - intros k. rewrite Hp. destruct k; apply (bool_decide_unpack _); vm_compute; exact I.
Qed.

(** * Further properties: rotations *)

Section Rotations.
Implicit Types (m : Matrix) (h w : nat).

Lemma rotateCCW_then_CW h w m :
  (0 < h)%nat → (0 < w)%nat → rectangular h w m → rotateCCW m ≫= rotateCW = Some m.
Proof.
  intros Hh Hw Hr.
  destruct (rotateCCW_spec h w m Hh Hr) as (ccw & Eccw & Rccw & Cccw).
  destruct (rotateCW_spec w h ccw Hw Rccw) as (back & Eback & Rback & Cback).
  rewrite Eccw. simpl. rewrite Eback. f_equal.
  apply (rectangular_ext h w); [done | done |].
  intros i j Hi Hj.
  rewrite <- (Cccw i j Hi Hj).
  rewrite <- (Cback (w - 1 - j)%nat i) by lia.
  f_equal; lia.
Qed.

(** Two quarter turns: the half turn. *)
Lemma rotateCW_twice h w m :
  (0 < h)%nat → (0 < w)%nat → rectangular h w m →
  ∃ r, rotateCW m ≫= rotateCW = Some r ∧ rectangular h w r ∧
       ∀ y x, (y < h)%nat → (x < w)%nat → cell r (h - 1 - y) (w - 1 - x) = cell m y x.
Proof.
  intros Hh Hw Hr.
  destruct (rotateCW_spec h w m Hh Hr) as (r1 & E1 & R1 & C1).
  destruct (rotateCW_spec w h r1 Hw R1) as (r2 & E2 & R2 & C2).
  exists r2. rewrite E1. simpl. split; [exact E2 |]. split; [exact R2 |].
  intros y x Hy Hx. rewrite <- (C1 y x Hy Hx).
  rewrite <- (C2 x (h - 1 - y)%nat) by lia. f_equal; lia.
Qed.

Lemma rotateCW_four_times h w m :
  (0 < h)%nat → (0 < w)%nat → rectangular h w m →
  ((rotateCW m ≫= rotateCW) ≫= rotateCW) ≫= rotateCW = Some m.
Proof.
  intros Hh Hw Hr.
  destruct (rotateCW_twice h w m Hh Hw Hr) as (r2 & E2 & R2 & C2).
  destruct (rotateCW_twice h w r2 Hh Hw R2) as (r4 & E4 & R4 & C4).
  rewrite E2. simpl.
  destruct (rotateCW r2) as [r3|] eqn:E3; [| discriminate]. simpl in *.
  rewrite E4. f_equal. symmetry.
  apply (rectangular_ext h w); [done | done |].
  intros i j Hi Hj. rewrite <- (C2 i j Hi Hj).
  rewrite <- (C4 (h - 1 - i)%nat (w - 1 - j)%nat) by lia. f_equal; lia.
Qed.

Lemma hasFilledCell_rotateCW h w m r :
  (0 < h)%nat → rectangular h w m → rotateCW m = Some r → hasFilledCell m → hasFilledCell r.
Proof.
  intros Hh Hr Er (i & j & v & Hc & Hv).
  destruct (rotateCW_spec h w m Hh Hr) as (r' & Er' & _ & C). rewrite Er in Er'.
  inversion Er'; subst r'.
  apply cell_Some_lt in Hc as Hc'. destruct Hc' as (row & Hrow & Hj).
  assert (i < h)%nat by (destruct Hr as [<- _]; by eapply lookup_lt_Some).
  assert (j < w)%nat.
  { destruct Hr as [_ Hall]. rewrite <- (Forall_lookup_1 _ _ _ _ Hall Hrow).
    by eapply lookup_lt_Some. }
  exists j, (h - 1 - i)%nat, v. by rewrite C.
Qed.

Lemma hasFilledCell_rotateCCW h w m r :
  (0 < h)%nat → rectangular h w m → rotateCCW m = Some r → hasFilledCell m → hasFilledCell r.
Proof.
  intros Hh Hr Er (i & j & v & Hc & Hv).
  destruct (rotateCCW_spec h w m Hh Hr) as (r' & Er' & _ & C). rewrite Er in Er'.
  inversion Er'; subst r'.
  apply cell_Some_lt in Hc as Hc'. destruct Hc' as (row & Hrow & Hj).
  assert (i < h)%nat by (destruct Hr as [<- _]; by eapply lookup_lt_Some).
  assert (j < w)%nat.
  { destruct Hr as [_ Hall]. rewrite <- (Forall_lookup_1 _ _ _ _ Hall Hrow).
    by eapply lookup_lt_Some. }
  exists (w - 1 - j)%nat, i, v. by rewrite C.
Qed.

End Rotations.

(** X2. on a rectangular matrix with at least one row and one column, a
    counter-clockwise turn is undone by a clockwise one, and four clockwise
    turns give the matrix back. *)
Theorem rotations_compose (h w : nat) (m : Matrix) :
  (0 < h)%nat → (0 < w)%nat → rectangular h w m →
  rotateCCW m ≫= rotateCW = Some m ∧
  ((rotateCW m ≫= rotateCW) ≫= rotateCW) ≫= rotateCW = Some m.
Proof.
  intros Hh Hw Hr. split; [by apply (rotateCCW_then_CW h w) | by apply (rotateCW_four_times h w)].
Qed.

Lemma rotations_compose_witness :
  (0 < 2)%nat ∧ (0 < 3)%nat ∧ rectangular 2 3 [[1; 2; 3]; [4; 5; 6]] ∧
  rotateCCW [[1; 2; 3]; [4; 5; 6]] ≫= rotateCW = Some [[1; 2; 3]; [4; 5; 6]].
Proof.
  assert (Hr : rectangular 2 3 [[1; 2; 3]; [4; 5; 6]]).
  { split; [reflexivity | repeat constructor]. }
  split; [lia |]. split; [lia |]. split; [exact Hr |].
  apply (proj1 (rotations_compose 2 3 _ ltac:(lia) ltac:(lia) Hr)).
Defined.

Lemma cell_Some_bounds {A} (h w : nat) (g : list (list A)) (i j : nat) (a : A) :
  rectangular h w g → cell g i j = Some a → (i < h)%nat ∧ (j < w)%nat.
Proof.
  intros [Hl Hall] Hc. apply cell_Some_lt in Hc as (row & Hrow & Hj).
  split; [rewrite <- Hl; by eapply lookup_lt_Some |].
  rewrite <- (Forall_lookup_1 _ _ _ _ Hall Hrow). by eapply lookup_lt_Some.
Qed.

Lemma hasFilledCell_back_CW (h w : nat) (m r : Matrix) :
  (0 < h)%nat → rectangular h w m → rotateCW m = Some r → hasFilledCell r → hasFilledCell m.
Proof.
  intros Hh Hr Er (a & b & v & Hc & Hv).
  destruct (rotateCW_spec h w m Hh Hr) as (r' & Er' & Rr & C). rewrite Er in Er'.
  inversion Er'; subst r'.
  destruct (cell_Some_bounds w h r a b v Rr Hc) as [Ha Hb].
  exists (h - 1 - b)%nat, a, v. rewrite <- (C (h - 1 - b)%nat a) by lia.
  replace (h - 1 - (h - 1 - b))%nat with b by lia. done.
Qed.

Lemma hasFilledCell_back_CCW (h w : nat) (m r : Matrix) :
  (0 < h)%nat → rectangular h w m → rotateCCW m = Some r → hasFilledCell r → hasFilledCell m.
Proof.
  intros Hh Hr Er (a & b & v & Hc & Hv).
  destruct (rotateCCW_spec h w m Hh Hr) as (r' & Er' & Rr & C). rewrite Er in Er'.
  inversion Er'; subst r'.
  destruct (cell_Some_bounds w h r a b v Rr Hc) as [Ha Hb].
  exists b, (w - 1 - a)%nat, v. rewrite <- (C b (w - 1 - a)%nat) by lia.
  replace (w - 1 - (w - 1 - a))%nat with a by lia. done.
Qed.

(** The rotations keep the shape of a piece: used for the invariant of the
    operations. *)
Lemma rotation_keeps_piece_shape_core (ccw : bool) (m : Matrix) :
  properGrid m → hasFilledCell m →
  ∃ r, (if ccw then rotateCCW m else rotateCW m) = Some r ∧ properGrid r ∧ hasFilledCell r.
Proof.
  intros (h & w & Hh & Hw & Hr) Hf. destruct ccw.
  - destruct (rotateCCW_spec h w m Hh Hr) as (r & Er & Rr & _).
    exists r. split; [done |]. split; [by exists w, h |].
    by apply (hasFilledCell_rotateCCW h w m).
  - destruct (rotateCW_spec h w m Hh Hr) as (r & Er & Rr & _).
    exists r. split; [done |]. split; [by exists w, h |].
    by apply (hasFilledCell_rotateCW h w m).
Qed.

(** X3. On every grid of [h >= 1] rows and [w >= 1] columns, filled or not,
    [rotateCW] and [rotateCCW] return (they do not throw); the result has
    [w] rows and [h] columns, and it has a filled cell exactly when the
    input has one. *)
Theorem rotation_keeps_piece_shape (ccw : bool) (h w : nat) (m : Matrix) :
  (0 < h)%nat → (0 < w)%nat → rectangular h w m →
  ∃ r, (if ccw then rotateCCW m else rotateCW m) = Some r ∧ rectangular w h r ∧
       (hasFilledCell r ↔ hasFilledCell m).
Proof.
  intros Hh Hw Hr. destruct ccw.
  - destruct (rotateCCW_spec h w m Hh Hr) as (r & Er & Rr & _).
    exists r. split; [done |]. split; [done |]. split.
    + by apply (hasFilledCell_back_CCW h w m).
    + by apply (hasFilledCell_rotateCCW h w m).
  - destruct (rotateCW_spec h w m Hh Hr) as (r & Er & Rr & _).
    exists r. split; [done |]. split; [done |]. split.
    + by apply (hasFilledCell_back_CW h w m).
    + by apply (hasFilledCell_rotateCW h w m).
Qed.

Lemma spawnPiece_shape (k : Tetromino) :
  properGrid (Piece.matrix (spawnPiece k)) ∧ hasFilledCell (Piece.matrix (spawnPiece k)).
Proof.
  destruct k; simpl; (split;
    [first [ exists 4%nat, 4%nat; split; [lia |]; split; [lia |]; split;
               [reflexivity | repeat constructor]
           | exists 3%nat, 3%nat; split; [lia |]; split; [lia |]; split;
               [reflexivity | repeat constructor]
           | exists 2%nat, 2%nat; split; [lia |]; split; [lia |]; split;
               [reflexivity | repeat constructor] ]
    | first [ by exists 0%nat, 0%nat, 1 | by exists 0%nat, 1%nat, 1
            | by exists 0%nat, 2%nat, 1 | by exists 1%nat, 0%nat, 1 ] ]).
Qed.

Lemma rotation_keeps_piece_shape_witness :
  ∃ r, rotateCW [[0; 0; 0]; [0; 0; 0]] = Some r ∧ rectangular 3 2 r ∧
       (hasFilledCell r ↔ hasFilledCell [[0; 0; 0]; [0; 0; 0]]).
Proof.
  apply (rotation_keeps_piece_shape false 2 3 [[0; 0; 0]; [0; 0; 0]]); [lia | lia |].
  split; [reflexivity | repeat constructor].
Defined.

(** * Further properties: the board after the row loop *)

Section ClearShape.
Implicit Types (b : Board).

Lemma fullRows_keptRows_length b : (fullRows b + length (keptRows b) = length b)%nat.
Proof.
  unfold fullRows, keptRows. induction b as [|row b IH]; [done |].
  destruct (rowFull row) eqn:E.
  - rewrite filter_cons_True by done.
    rewrite (filter_cons_False (λ r, rowFull r = false)) by (rewrite E; discriminate).
    simpl. lia.
  - rewrite filter_cons_False by (rewrite E; discriminate).
    rewrite (filter_cons_True (λ r, rowFull r = false)) by done.
    simpl. lia.
Qed.

Lemma keptRows_Forall (P : list Cell.t → Prop) b : Forall P b → Forall P (keptRows b).
Proof.
  unfold keptRows. induction 1 as [|row b Hrow _ IH]; [constructor |].
  destruct (rowFull row) eqn:E.
  - by rewrite filter_cons_False by (rewrite E; discriminate).
  - rewrite filter_cons_True by done. by constructor.
Qed.

Lemma fullRows_keptRows b : fullRows (keptRows b) = 0%nat.
Proof.
  unfold fullRows, keptRows. induction b as [|row b IH]; [done |].
  destruct (rowFull row) eqn:E.
  - by rewrite filter_cons_False by (rewrite E; discriminate).
  - rewrite filter_cons_True by done.
    by rewrite filter_cons_False by (rewrite E; discriminate).
Qed.

Lemma fullRows_app b1 b2 : fullRows (b1 ++ b2) = (fullRows b1 + fullRows b2)%nat.
Proof. unfold fullRows. by rewrite filter_app, length_app. Qed.

Lemma fullRows_empty_rows (n : nat) : fullRows (replicate n emptyRow) = 0%nat.
Proof.
  unfold fullRows. induction n as [|n IH]; [done |]. simpl.
  by rewrite filter_cons_False by (rewrite rowFull_emptyRow; discriminate).
Qed.

Lemma wfBoard_length b : wfBoard b → length b = Z.to_nat ROWS.
Proof. by intros [? _]. Qed.

End ClearShape.

Lemma clearRows_keeps_shape_core (b : Board) :
  wfBoard b →
  ∃ b' n, clearRows b = Some (b', n) ∧ wfBoard b' ∧ fullRows b' = 0%nat ∧
          0 ≤ n ≤ ROWS ∧ clearRows b' = Some (b', 0).
Proof.
  intros Hwf. pose proof (wfBoard_length b Hwf) as Hl.
  pose proof (fullRows_keptRows_length b) as Hsum.
  assert (Hwf' : wfBoard (replicate (fullRows b) emptyRow ++ keptRows b)).
  { destruct Hwf as [_ Hrows]. split.
    - rewrite length_app, length_replicate. lia.
    - apply Forall_app. split; [by apply Forall_replicate | by apply keptRows_Forall]. }
  assert (H0 : fullRows (replicate (fullRows b) emptyRow ++ keptRows b) = 0%nat).
  { by rewrite fullRows_app, fullRows_empty_rows, fullRows_keptRows. }
  eexists _, _. split; [by apply clearRows_result |]. split; [exact Hwf' |].
  split; [exact H0 |]. split.
  - change ROWS with (Z.of_nat (Z.to_nat ROWS)). lia.
  - rewrite clearRows_result by (by apply wfBoard_length). rewrite H0. simpl.
    by rewrite keptRows_all.
Qed.

(** X4. on a board of [ROWS] by [COLS] cells the row loop of [clearLines]
    never throws and stops within its bound; the board it leaves has the
    same shape and no full row, the count lies between 0 and [ROWS], and a
    second pass over the result counts nothing and changes nothing. *)
Theorem clearRows_keeps_shape (b : Board) :
  wfBoard b →
  ∃ b' n, clearRows b = Some (b', n) ∧ wfBoard b' ∧ fullRows b' = 0%nat ∧
          0 ≤ n ≤ ROWS ∧ clearRows b' = Some (b', 0).
Proof. exact (clearRows_keeps_shape_core b). Qed.

Lemma wfBoard_boardOf_one :
  wfBoard (boardOf [[1; 1; 1; 1; 1; 1; 1; 1; 1; 1]]).
Proof. split; [reflexivity | repeat constructor]. Qed.

Lemma clearRows_keeps_shape_witness :
  ∃ b' n, clearRows (boardOf [[1; 1; 1; 1; 1; 1; 1; 1; 1; 1]]) = Some (b', n) ∧
          wfBoard b' ∧ fullRows b' = 0%nat.
Proof.
  destruct (clearRows_keeps_shape _ wfBoard_boardOf_one) as (b' & n & E & Hwf & H0 & _).
  exists b', n. split; [exact E |]. split; [exact Hwf | exact H0].
Defined.

(** * Further properties: the two spawns *)

Lemma spawnCollidesRow_collidesRow (b : Board) (pos : Point.t) (y : Z) (row : list Z) (x : Z) :
  spawnCollidesRow b pos y row x = collidesRow b pos origin y row x.
Proof.
  revert x. induction row as [|v row IH]; intros x; simpl; [done |].
  rewrite !Z.add_0_r, IH.
  destruct (v =? 0); [done |]. destruct (_ <? 0); [done |].
  destruct ((_ <? 0) || _ || _); simpl; [done |]. by destruct (filledAt b _ _).
Qed.

Lemma spawnCollidesRows_collidesRows (b : Board) (pos : Point.t) (rows : Matrix) (y : Z) :
  spawnCollidesRows b pos rows y = collidesRows b pos origin rows y.
Proof.
  revert y. induction rows as [|row rows IH]; intros y; simpl; [done |].
  by rewrite spawnCollidesRow_collidesRow, IH.
Qed.

(** X5. the collision test written out inside [spawn] of the hook
    [useTetris] decides what [collides] decides at zero delta, and the hook's
    [spawn] and the page's [spawn] take the same piece from the same queue,
    end with the same queue, the same active piece and the same running
    flag; the hook returns [null] exactly when the page stops the game. *)
Theorem useTetrisSpawn_agrees (rnd : nat → nat) (s : State) :
  ∃ h' r s',
    useTetrisSpawn rnd (Hook.mk (board s) (cur s) (next s) (running s)) = Some (h', r) ∧
    spawn rnd s = Some s' ∧
    Hook.board h' = board s' ∧ Hook.cur h' = cur s' ∧ Hook.next h' = next s' ∧
    (r = None → Hook.running h' = false ∧ running s' = false) ∧
    (∀ p, r = Some p → cur s' = Some p ∧ Hook.running h' = running s ∧ running s' = running s).
Proof.
  destruct (refill_nonempty rnd (next s)) as (k & rest & Hq).
  assert (Hsame : spawnCollidesRows (board s) (Piece.pos (spawnPiece k))
                                   (Piece.matrix (spawnPiece k)) 0
                  = collides (spawnPiece k) (board s) origin)
    by apply spawnCollidesRows_collidesRows.
  rewrite (spawn_unfold rnd s k rest) by exact Hq.
  unfold useTetrisSpawn. cbn [Hook.next Hook.board Hook.cur Hook.running].
  unfold refill in Hq. rewrite Hq, Hsame.
  destruct (collides (spawnPiece k) (board s) origin); eexists _, _, _;
    (split; [reflexivity |]); (split; [reflexivity |]); simpl; repeat split;
    try done; intros; simplify_eq; done.
Qed.

(** * Further properties: reset *)

Lemma spawn_on_empty_board (k : Tetromino) :
  collides (spawnPiece k) createEmptyBoard origin = false.
Proof. destruct k; reflexivity. Qed.

(** X6. [reset] always gives a running, unpaused game on the empty board,
    with score 0, no lines, level 1, gravity 800, no challenge, the first kind
    of a fresh bag as the active piece and the other six as the queue. It
    does not touch the countdown value, the seen challenges or the pending
    timers. *)
Theorem reset_starts_game (rndBag rndSpawn : nat → nat) (s : State) :
  ∃ s' k,
    reset rndBag rndSpawn s = Some s' ∧
    newBag rndBag = k :: next s' ∧ cur s' = Some (spawnPiece k) ∧
    board s' = createEmptyBoard ∧ running s' = true ∧ paused s' = false ∧
    score s' = 0 ∧ lines s' = 0 ∧ level s' = 1 ∧ gravityMs s' = 800 ∧
    lastAction s' = ActNone ∧ rotatedWithKick s' = false ∧ b2b s' = false ∧
    challenge s' = Challenge.none ∧
    countdown s' = countdown s ∧ seenChallenges s' = seenChallenges s ∧ timers s' = timers s.
Proof.
  pose proof (length_newBag rndBag) as Hlen.
  destruct (newBag rndBag) as [|k rest] eqn:Hbag; [discriminate |].
  exists (mkState createEmptyBoard (Some (spawnPiece k)) rest 800 ActNone false false 0 0 1
                  (countdown s) (seenChallenges s) Challenge.none true false (timers s)), k.
  split; [| repeat split; reflexivity].
  unfold reset. rewrite Hbag.
  rewrite (spawn_unfold rndSpawn _ k rest).
  - simpl. by rewrite spawn_on_empty_board.
  - unfold refill. simpl in *.
    destruct rest as [|? [|? [|? ?]]]; simpl in Hlen; try lia. reflexivity.
Qed.

(** * Further properties: merge *)

Section Merge.
Implicit Types (b : Board) (c : Cell.t) (pos : Point.t).

Lemma filledAt_lookup b (r cc : Z) (row : list Cell.t) (x : Cell.t) :
  b !! Z.to_nat r = Some row → row !! Z.to_nat cc = Some x → filledAt b r cc = Cell.filled x.
Proof. intros Hr Hc. unfold filledAt. rewrite Hr. simpl. by rewrite Hc. Qed.

Lemma writeCell_spec b (by_ bx : Z) c :
  wfBoard b → 0 ≤ by_ < ROWS → 0 ≤ bx < COLS →
  ∃ b', writeCell b by_ bx c = Some b' ∧ wfBoard b' ∧
        ∀ r cc, 0 ≤ r → 0 ≤ cc →
                filledAt b' r cc = if decide (r = by_ ∧ cc = bx) then Cell.filled c
                                   else filledAt b r cc.
Proof.
  intros [Hl Hrows] Hy Hx. unfold writeCell.
  destruct (lookup_lt_is_Some_2 b (Z.to_nat by_)) as [row Hrow].
  { rewrite Hl. apply Z2Nat.inj_lt; lia. }
  pose proof (Forall_lookup_1 _ _ _ _ Hrows Hrow) as Hlen. simpl in Hlen.
  rewrite Hrow. simpl.
  assert (Hin : (0 <=? bx) && (bx <? Z.of_nat (length row)) = true).
  { rewrite Hlen. apply andb_true_intro. split; [apply Z.leb_le | apply Z.ltb_lt]; lia. }
  rewrite Hin. eexists. split; [reflexivity |]. split.
  - split; [by rewrite length_insert |].
    apply Forall_insert; [done |]. by rewrite length_insert.
  - intros r cc Hr Hc. unfold filledAt.
    destruct (decide (Z.to_nat r = Z.to_nat by_)) as [Heq|Hne].
    + assert (r = by_) as -> by lia.
      rewrite list_lookup_insert_eq by (by eapply lookup_lt_Some). simpl.
      destruct (decide (Z.to_nat cc = Z.to_nat bx)) as [Heq'|Hne'].
      * assert (cc = bx) as -> by lia.
        rewrite list_lookup_insert_eq by lia. by rewrite decide_True.
      * rewrite list_lookup_insert_ne by done. rewrite Hrow. simpl.
        rewrite decide_False by (intros [_ ?]; subst; done). done.
    + rewrite list_lookup_insert_ne by done.
      rewrite decide_False by (intros [? _]; subst; done). done.
Qed.

(** The cells of matrix row [y] from column offset [x] on, under [mergeRow]. *)
Lemma mergeRow_spec c pos (y : Z) (row : list Z) : ∀ (x : Z) b,
  Cell.filled c = true → wfBoard b →
  (∀ (j : nat) v, row !! j = Some v → v ≠ 0 → 0 ≤ Point.y pos + y →
                  Point.y pos + y < ROWS ∧ 0 ≤ Point.x pos + (x + Z.of_nat j) < COLS) →
  ∃ b', mergeRow c pos y row x b = Some b' ∧ wfBoard b' ∧
        ∀ r cc, 0 ≤ r → 0 ≤ cc →
          (filledAt b' r cc = true ↔
           filledAt b r cc = true ∨
           (r = Point.y pos + y ∧
            ∃ (j : nat) v, row !! j = Some v ∧ v ≠ 0 ∧ cc = Point.x pos + (x + Z.of_nat j))).
Proof.
  induction row as [|v row IH]; intros x b Hc Hwf Hsafe.
  - exists b. split; [reflexivity |]. split; [done |]. intros r cc _ _. split; [auto |].
    intros [?|(_ & j & v & Hj & _)]; [done |]. by rewrite lookup_nil in Hj.
  - assert (Hsafe' : ∀ (j : nat) v0, row !! j = Some v0 → v0 ≠ 0 → 0 ≤ Point.y pos + y →
              Point.y pos + y < ROWS ∧ 0 ≤ Point.x pos + (x + 1 + Z.of_nat j) < COLS).
    { intros j v0 Hj Hv0 Hy. specialize (Hsafe (S j) v0 Hj Hv0 Hy).
      replace (x + 1 + Z.of_nat j) with (x + Z.of_nat (S j)) by lia. exact Hsafe. }
    assert (Htail : ∀ r cc,
              (r = Point.y pos + y ∧
               ∃ (j : nat) v0, (v :: row) !! j = Some v0 ∧ v0 ≠ 0
                               ∧ cc = Point.x pos + (x + Z.of_nat j))
              ↔ (v ≠ 0 ∧ r = Point.y pos + y ∧ cc = Point.x pos + x) ∨
                (r = Point.y pos + y ∧
                 ∃ (j : nat) v0, row !! j = Some v0 ∧ v0 ≠ 0
                                 ∧ cc = Point.x pos + (x + 1 + Z.of_nat j))).
    { intros r cc. split.
      - intros (Hr & [|j] & v0 & Hj & Hv0 & Hcc).
        + simpl in Hj. inversion Hj; subst v0. left. repeat split; [done | done | lia].
        + right. split; [done |]. exists j, v0. repeat split; [done | done | lia].
      - intros [(Hv & Hr & Hcc)|(Hr & j & v0 & Hj & Hv0 & Hcc)].
        + split; [done |]. exists 0%nat, v. repeat split; [done | lia].
        + split; [done |]. exists (S j), v0. repeat split; [done | done | lia]. }
    simpl. destruct (Z.eqb_spec v 0) as [Hv|Hv].
    { destruct (IH (x + 1) b Hc Hwf Hsafe') as (b' & E & Hwf' & Hcells).
      exists b'. split; [exact E |]. split; [exact Hwf' |].
      intros r cc Hr Hcc. rewrite (Hcells r cc Hr Hcc), Htail. clear - Hv. tauto. }
    destruct (Z.geb_spec (Point.y pos + y) 0) as [Hy|Hy].
    + destruct (Hsafe 0%nat v eq_refl Hv Hy) as [Hylt Hxr].
      replace (x + Z.of_nat 0) with x in Hxr by lia.
      destruct (writeCell_spec b (Point.y pos + y) (Point.x pos + x) c Hwf)
        as (b1 & E1 & Hwf1 & Hcells1); [lia | lia |].
      rewrite E1. simpl.
      destruct (IH (x + 1) b1 Hc Hwf1 Hsafe') as (b' & E & Hwf' & Hcells).
      exists b'. split; [exact E |]. split; [exact Hwf' |].
      intros r cc Hr Hcc. rewrite (Hcells r cc Hr Hcc), Htail, (Hcells1 r cc Hr Hcc).
      case_decide as Hd; [| clear - Hd; tauto].
      destruct Hd as [-> ->]. rewrite Hc.
      split; intros _; [right; left; done | left; done].
    + destruct (IH (x + 1) b Hc Hwf Hsafe') as (b' & E & Hwf' & Hcells).
      exists b'. split; [exact E |]. split; [exact Hwf' |].
      intros r cc Hr Hcc. rewrite (Hcells r cc Hr Hcc), Htail.
      split; [tauto |]. intros [?|[(_ & -> & _)|?]]; [auto | lia | auto].
Qed.

Lemma mergeRows_spec c pos (rows : Matrix) : ∀ (y : Z) b,
  Cell.filled c = true → wfBoard b →
  (∀ (i j : nat) v, cell rows i j = Some v → v ≠ 0 → 0 ≤ Point.y pos + (y + Z.of_nat i) →
                    Point.y pos + (y + Z.of_nat i) < ROWS ∧
                    0 ≤ Point.x pos + Z.of_nat j < COLS) →
  ∃ b', mergeRows c pos rows y b = Some b' ∧ wfBoard b' ∧
        ∀ r cc, 0 ≤ r → 0 ≤ cc →
          (filledAt b' r cc = true ↔
           filledAt b r cc = true ∨
           ∃ (i j : nat) v, cell rows i j = Some v ∧ v ≠ 0 ∧
                            r = Point.y pos + (y + Z.of_nat i) ∧
                            cc = Point.x pos + Z.of_nat j).
Proof.
  induction rows as [|row rows IH]; intros y b Hc Hwf Hsafe.
  - exists b. split; [reflexivity |]. split; [done |]. intros r cc _ _. split; [auto |].
    intros [?|(i & j & v & Hcell & _)]; [done |]. unfold cell in Hcell.
    by rewrite lookup_nil in Hcell.
  - simpl.
    destruct (mergeRow_spec c pos y row 0 b Hc Hwf) as (b1 & E1 & Hwf1 & Hcells1).
    { intros j v Hj Hv Hy. specialize (Hsafe 0%nat j v Hj Hv).
      replace (y + Z.of_nat 0) with y in Hsafe by lia.
      replace (0 + Z.of_nat j) with (Z.of_nat j) by lia. by apply Hsafe. }
    rewrite E1. simpl.
    destruct (IH (y + 1) b1 Hc Hwf1) as (b' & E & Hwf' & Hcells).
    { intros i j v Hcell Hv Hy. specialize (Hsafe (S i) j v Hcell Hv).
      replace (y + Z.of_nat (S i)) with (y + 1 + Z.of_nat i) in Hsafe by lia.
      by apply Hsafe. }
    exists b'. split; [exact E |]. split; [exact Hwf' |].
    intros r cc Hr Hcc. rewrite (Hcells r cc Hr Hcc), (Hcells1 r cc Hr Hcc). split.
    + intros [[?|(Hy & j & v & Hj & Hv & Hx)]|(i & j & v & Hcell & Hv & Hy & Hx)].
      * by left.
      * right. exists 0%nat, j, v. repeat split; [exact Hj | done | lia | lia].
      * right. exists (S i), j, v. repeat split; [exact Hcell | done | lia | lia].
    + intros [?|([|i] & j & v & Hcell & Hv & Hy & Hx)].
      * by left; left.
      * left; right. split; [lia |]. exists j, v. repeat split; [exact Hcell | done | lia].
      * right. exists i, j, v. repeat split; [exact Hcell | done | lia | lia].
Qed.

End Merge.

Lemma merge_fills_piece_cells_core (p : Piece.t) (b : Board) :
  wfBoard b → collides p b origin = false →
  ∃ b', merge p b = Some b' ∧ wfBoard b' ∧
        ∀ r c, 0 ≤ r → 0 ≤ c →
               (filledAt b' r c = true ↔ filledAt b r c = true ∨ covers p r c).
Proof.
  intros Hwf Hfree. rewrite collides_false in Hfree. unfold merge.
  destruct (mergeRows_spec (Cell.mk true (Some (Piece.color p)) (Some (Piece.kind p)))
              (Piece.pos p) (Piece.matrix p) 0 b eq_refl Hwf) as (b' & E & Hwf' & Hcells).
  { intros i j v Hcell Hv Hy.
    specialize (Hfree i j). unfold cellHits, cellX, cellY, origin in Hfree. simpl in Hfree.
    destruct (filledAt b (Point.y (Piece.pos p) + Z.of_nat i + 0)
                         (Point.x (Piece.pos p) + Z.of_nat j + 0)) eqn:Hf.
    - exfalso. apply Hfree. exists v. repeat split; [done | done | lia | auto].
    - split.
      + destruct (Z.lt_ge_cases (Point.y (Piece.pos p) + (0 + Z.of_nat i)) ROWS); [done |].
        exfalso. apply Hfree. exists v. repeat split; [done | done | lia |].
        right; right; left. lia.
      + destruct (Z.lt_ge_cases (Point.x (Piece.pos p) + Z.of_nat j) 0).
        { exfalso. apply Hfree. exists v. repeat split; [done | done | lia |]. left. lia. }
        destruct (Z.lt_ge_cases (Point.x (Piece.pos p) + Z.of_nat j) COLS); [lia |].
        exfalso. apply Hfree. exists v. repeat split; [done | done | lia |].
        right; left. lia. }
  exists b'. split; [exact E |]. split; [exact Hwf' |].
  intros r c Hr Hc. rewrite (Hcells r c Hr Hc). unfold covers.
  split; (intros [?|(i & j & v & Hcell & Hv & Hy & Hx)]; [by left |]);
    right; exists i, j, v; repeat split; try done; lia.
Qed.

(** X7. for a piece that does not collide where it stands on a board of
    [ROWS] by [COLS] cells, [merge] never throws; the board it gives has the
    same shape, and a cell in it is filled exactly when it was filled before
    or lies under a filled cell of the piece (cells of the piece above row
    zero are dropped). *)
Theorem merge_fills_piece_cells (p : Piece.t) (b : Board) :
  wfBoard b → collides p b origin = false →
  ∃ b', merge p b = Some b' ∧ wfBoard b' ∧
        ∀ r c, 0 ≤ r → 0 ≤ c →
               (filledAt b' r c = true ↔ filledAt b r c = true ∨ covers p r c).
Proof. exact (merge_fills_piece_cells_core p b). Qed.

Lemma wfBoard_createEmptyBoard : wfBoard createEmptyBoard.
Proof.
  split; [reflexivity |]. apply Forall_replicate. reflexivity.
Qed.

Lemma merge_fills_piece_cells_witness :
  ∃ b', merge (tDown (Point.mk 3 17)) createEmptyBoard = Some b' ∧ wfBoard b' ∧
        (filledAt b' 19 4 = true ↔
         filledAt createEmptyBoard 19 4 = true ∨ covers (tDown (Point.mk 3 17)) 19 4).
Proof.
  destruct (merge_fills_piece_cells (tDown (Point.mk 3 17)) createEmptyBoard
              wfBoard_createEmptyBoard eq_refl) as (b' & E & Hwf & Hcells).
  exists b'. split; [exact E |]. split; [exact Hwf |]. apply Hcells; lia.
Defined.

(** * Further properties: moving pieces *)

Section Shift.
Variable b : Board.

Lemma collidesRow_ext (pos delta pos' delta' : Point.t) (y : Z) (row : list Z) (x : Z) :
  Point.x pos + Point.x delta = Point.x pos' + Point.x delta' →
  Point.y pos + Point.y delta = Point.y pos' + Point.y delta' →
  collidesRow b pos delta y row x = collidesRow b pos' delta' y row x.
Proof.
  intros Hx Hy. revert x. induction row as [|v row IH]; intros x; simpl; [done |].
  replace (Point.x pos + x + Point.x delta) with (Point.x pos' + x + Point.x delta') by lia.
  replace (Point.y pos + y + Point.y delta) with (Point.y pos' + y + Point.y delta') by lia.
  by rewrite IH.
Qed.

Lemma collidesRows_ext (pos delta pos' delta' : Point.t) (rows : Matrix) (y : Z) :
  Point.x pos + Point.x delta = Point.x pos' + Point.x delta' →
  Point.y pos + Point.y delta = Point.y pos' + Point.y delta' →
  collidesRows b pos delta rows y = collidesRows b pos' delta' rows y.
Proof.
  intros Hx Hy. revert y. induction rows as [|row rows IH]; intros y; simpl; [done |].
  by rewrite (collidesRow_ext pos delta pos' delta'), IH.
Qed.

(** Colliding depends on where the cells land, not on how position and
    delta share the way. *)
Lemma collides_ext (p p' : Piece.t) (delta delta' : Point.t) :
  Piece.matrix p = Piece.matrix p' →
  Point.x (Piece.pos p) + Point.x delta = Point.x (Piece.pos p') + Point.x delta' →
  Point.y (Piece.pos p) + Point.y delta = Point.y (Piece.pos p') + Point.y delta' →
  collides p b delta = collides p' b delta'.
Proof.
  intros Hm Hx Hy. unfold collides. rewrite Hm. by apply collidesRows_ext.
Qed.

Lemma lowered_0 (p : Piece.t) : lowered p 0 = p.
Proof. destruct p as [k m [x y] c]. unfold lowered, Piece.withPos. simpl. by rewrite Z.add_0_r. Qed.

Lemma lowered_lowered (p : Piece.t) (k k' : Z) : lowered (lowered p k) k' = lowered p (k + k').
Proof. unfold lowered, Piece.withPos. simpl. by rewrite Z.add_assoc. Qed.

Lemma collides_floor (p : Piece.t) (i j : nat) (v : Z) :
  cell (Piece.matrix p) i j = Some v → v ≠ 0 →
  ROWS ≤ Point.y (Piece.pos p) + Z.of_nat i + 1 →
  collides p b (Point.mk 0 1) = true.
Proof.
  intros Hc Hv Hy. apply collides_true. exists i, j, v.
  unfold cellX, cellY. simpl. split; [done |]. split; [done |].
  change ROWS with 20 in *. split; [lia |]. right; right; left. lia.
Qed.

(** The loop of [hardDrop]: with a filled cell in matrix row [i] and enough
    turns to reach the floor, it stops after [k] steps, at the first height
    where one more step would collide. *)
Lemma dropLoop_lands (i j : nat) (v : Z) (fuel : nat) : ∀ (p : Piece.t) (d : Z),
  cell (Piece.matrix p) i j = Some v → v ≠ 0 →
  ROWS - 1 - Z.of_nat i - Point.y (Piece.pos p) < Z.of_nat fuel + 1 →
  ∃ k, dropLoop fuel b p d = Some (lowered p k, d + k) ∧ 0 ≤ k ∧
       collides (lowered p k) b (Point.mk 0 1) = true ∧
       ∀ k', 0 ≤ k' < k → collides (lowered p k') b (Point.mk 0 1) = false.
Proof.
  induction fuel as [|fuel IH]; intros p d Hc Hv Hfuel.
  - exists 0. rewrite lowered_0, Z.add_0_r.
    assert (Hcol : collides p b (Point.mk 0 1) = true).
    { apply (collides_floor p i j v Hc Hv). lia. }
    simpl. rewrite Hcol. repeat split; first [lia | done | intros; lia].
  - destruct (collides p b (Point.mk 0 1)) eqn:Hcol.
    + exists 0. rewrite lowered_0, Z.add_0_r. simpl. rewrite Hcol.
      repeat split; first [lia | done | intros; lia].
    + destruct (IH (lowered p 1) (d + 1)) as (k & E & Hk & Hland & Hfree).
      { exact Hc. } { exact Hv. }
      { unfold lowered, Piece.withPos. simpl. lia. }
      exists (1 + k). simpl. rewrite Hcol. fold (lowered p 1).
      rewrite lowered_lowered in E, Hland. rewrite E.
      split; [f_equal; f_equal; lia |]. split; [lia |]. split; [exact Hland |].
      intros k' Hk'. destruct (decide (k' = 0)) as [->|Hne].
      * by rewrite lowered_0.
      * specialize (Hfree (k' - 1)). rewrite lowered_lowered in Hfree.
        replace (1 + (k' - 1)) with k' in Hfree by lia. apply Hfree. lia.
Qed.

Lemma lowered_free (p : Piece.t) (k : Z) :
  0 ≤ k → collides p b origin = false →
  (∀ k', 0 ≤ k' < k → collides (lowered p k') b (Point.mk 0 1) = false) →
  collides (lowered p k) b origin = false.
Proof.
  intros Hk H0 Hfree. destruct (decide (k = 0)) as [->|Hne]; [by rewrite lowered_0 |].
  rewrite <- (Hfree (k - 1)) by lia.
  apply collides_ext; unfold lowered, Piece.withPos, origin; simpl; [done | lia | lia].
Qed.

End Shift.

Lemma hardDrop_lands_core (v : Variant) (rnd : nat → nat) (s : State) (p : Piece.t) :
  paused s = false → running s = true → cur s = Some p → hasFilledCell (Piece.matrix p) →
  ∃ k, 0 ≤ k ∧
       collides (lowered p k) (board s) (Point.mk 0 1) = true ∧
       (∀ k', 0 ≤ k' < k → collides (lowered p k') (board s) (Point.mk 0 1) = false) ∧
       hardDrop v rnd s =
       lock v rnd (lowered p k)
            (setScore (score s + k * 2) (setCur (Some (lowered p k)) (setLastAction ActHard s))).
Proof.
  intros Hp Hr Hcur (i & j & c & Hc & Hv).
  destruct (dropLoop_lands (board s) i j c (Z.to_nat (ROWS - Point.y (Piece.pos p))) p 0 Hc Hv)
    as (k & E & Hk & Hland & Hfree); [lia |].
  exists k. split; [exact Hk |]. split; [exact Hland |]. split; [exact Hfree |].
  unfold hardDrop. rewrite Hp. simpl. rewrite Hcur, Hr. simpl.
  rewrite E. simpl. by rewrite Z.max_r by lia.
Qed.

(** X8. in a running game with an active piece that has a filled cell,
    [hardDrop] never loops for ever: it lowers the piece by the [k >= 0] rows
    after which one more step would collide (no step before that collides),
    adds two points per row and locks the piece there. *)
Theorem hardDrop_lands (v : Variant) (rnd : nat → nat) (s : State) (p : Piece.t) :
  paused s = false → running s = true → cur s = Some p → hasFilledCell (Piece.matrix p) →
  ∃ k, 0 ≤ k ∧
       collides (lowered p k) (board s) (Point.mk 0 1) = true ∧
       (∀ k', 0 ≤ k' < k → collides (lowered p k') (board s) (Point.mk 0 1) = false) ∧
       hardDrop v rnd s =
       lock v rnd (lowered p k)
            (setScore (score s + k * 2) (setCur (Some (lowered p k)) (setLastAction ActHard s))).
Proof. exact (hardDrop_lands_core v rnd s p). Qed.

Lemma hardDrop_lands_witness :
  ∃ k, 0 ≤ k ∧
       hardDrop GameClient noDraw wallState =
       lock GameClient noDraw
            (lowered (Piece.mk kT [[0; 1; 0]; [0; 1; 1]; [0; 1; 0]] (Point.mk (-1) 5) (COLORS kT)) k)
            (setScore (score wallState + k * 2)
               (setCur (Some (lowered (Piece.mk kT [[0; 1; 0]; [0; 1; 1]; [0; 1; 0]]
                                                (Point.mk (-1) 5) (COLORS kT)) k))
                       (setLastAction ActHard wallState))).
Proof.
  destruct (hardDrop_lands GameClient noDraw wallState
              (Piece.mk kT [[0; 1; 0]; [0; 1; 1]; [0; 1; 0]] (Point.mk (-1) 5) (COLORS kT))
              eq_refl eq_refl eq_refl) as (k & Hk & _ & _ & E).
  { by exists 0%nat, 1%nat, 1. }
  exists k. split; [exact Hk | exact E].
Defined.

(** * Further properties: what every operation keeps *)

Section Invariants.
Variables (v : Variant) (rnd : nat → nat).

Lemma inPlay_ext (s s' : State) :
  board s' = board s → cur s' = cur s → running s' = running s → inPlay s → inPlay s'.
Proof. intros Hb Hc Hr (H1 & H2 & H3). unfold inPlay. rewrite Hb, Hc, Hr. done. Qed.

Lemma spawn_fields (s : State) :
  ∃ s' k, spawn rnd s = Some s' ∧ board s' = board s ∧ score s' = score s ∧
          lines s' = lines s ∧ level s' = level s ∧ gravityMs s' = gravityMs s ∧
          ((running s' = false ∧ cur s' = cur s) ∨
           (running s' = running s ∧ cur s' = Some (spawnPiece k) ∧
            collides (spawnPiece k) (board s) origin = false)).
Proof.
  destruct (refill_nonempty rnd (next s)) as (k & rest & Hq).
  eexists _, k. split; [by apply spawn_unfold |].
  destruct (collides (spawnPiece k) (board s) origin) eqn:Hc; simpl;
    repeat split; auto.
Qed.

Lemma clearLines_fields (s : State) (b' : Board) (n : Z) (p : Piece.t) :
  clearRows (board s) = Some (b', n) → 0 ≤ n → cur s = Some p →
  ∃ s1, clearLines v s = Some s1 ∧ board s1 = b' ∧ cur s1 = cur s ∧
        running s1 = running s ∧
        score s1 = score s + lockGain n (isTSpin (setBoard b' s) p) s b' ∧
        lines s1 = lines s + n ∧
        level s1 = (if 0 <? n then updateLevel v (lines s + n) else level s) ∧
        gravityMs s1 = (if 0 <? n then calculateSpeed v (updateLevel v (lines s + n))
                        else gravityMs s).
Proof.
  intros Hrows Hn Hcur. unfold lockGain. destruct (Z.ltb_spec 0 n) as [Hpos|Hzero].
  - rewrite (clearLines_scored v s b' n p Hrows Hpos Hcur). eexists. split; [reflexivity |].
    destruct v; simpl; unfold startChallenge; try destruct (_ =? 0); simpl;
      repeat split; reflexivity.
  - assert (n = 0) as -> by lia.
    rewrite (clearLines_nothing v s b' 0 Hrows eq_refl). eexists. split; [reflexivity |].
    simpl. repeat split; lia.
Qed.

Lemma lock_outcome (s : State) (p : Piece.t) :
  wfBoard (board s) → cur s = Some p →
  properGrid (Piece.matrix p) → hasFilledCell (Piece.matrix p) →
  collides p (board s) origin = false →
  ∃ bm b' n s', merge p (board s) = Some bm ∧ clearRows bm = Some (b', n) ∧
                lock v rnd p s = Some s' ∧ lockOutcome v s p b' n s'.
Proof.
  intros Hwf Hcur Hgrid Hfilled Hfree.
  destruct (merge_fills_piece_cells_core p (board s) Hwf Hfree) as (bm & Em & Hwfm & _).
  destruct (clearRows_keeps_shape_core bm Hwfm) as (b' & n & Ec & Hwf' & Hnone & Hn & _).
  destruct (clearLines_fields (setBoard bm s) b' n p Ec (proj1 Hn) Hcur)
    as (s1 & E1 & Hb1 & Hc1 & Hr1 & Hs1 & Hl1 & Hlv1 & Hg1).
  destruct (spawn_fields s1) as (s' & k & E' & Hb' & Hs' & Hl' & Hlv' & Hg' & Hcases).
  exists bm, b', n, s'. split; [exact Em |]. split; [exact Ec |]. split.
  { unfold lock. rewrite Em. simpl. rewrite E1. simpl. exact E'. }
  unfold lockOutcome. rewrite Hb', Hs', Hl', Hlv', Hg', Hb1, Hs1, Hl1, Hlv1, Hg1.
  split; [done |]. split; [exact Hwf' |]. split; [exact Hnone |]. split; [exact Hn |].
  split; [done |]. split; [done |]. split; [done |]. split; [done |].
  unfold inPlay. split; [by rewrite Hb', Hb1 |]. split.
  - intros q Hq. destruct Hcases as [[_ Hsame]|(_ & Hnew & _)].
    + rewrite Hsame, Hc1 in Hq. simpl in Hq. rewrite Hcur in Hq. by inversion Hq; subst.
    + rewrite Hnew in Hq. inversion Hq; subst. apply spawnPiece_shape.
  - intros Hrun q Hq. destruct Hcases as [[Hstop _]|(_ & Hnew & Hfree')].
    + congruence.
    + rewrite Hnew in Hq. inversion Hq; subst. by rewrite Hb'.
Qed.

Lemma move_inPlay (dx : Z) (s : State) : inPlay s → inPlay (move v dx s).
Proof.
  intros Hin. unfold move. destruct (paused s); [done |].
  assert (Hin' : inPlay (setLastAction ActMove s)) by (by apply (inPlay_ext s)).
  simpl. destruct (cur s) as [p|] eqn:Hcur; [| done].
  destruct (running s) eqn:Hrun; simpl; [| done].
  match goal with |- context [collides p (board s) ?d] =>
    destruct (collides p (board s) d) eqn:Hcol end; simpl; [done |].
  destruct Hin as (Hwf & Hshape & Hfree). split; [done |]. split.
  - intros q Hq. simpl in Hq. inversion Hq; subst q. simpl. by apply Hshape.
  - intros _ q Hq. simpl in Hq. inversion Hq; subst q.
    rewrite <- Hcol. apply collides_ext; simpl; [done | lia | lia].
Qed.

Lemma tryKicks_inPlay (ks : list Z) (p : Piece.t) (m : Matrix) (s : State) :
  properGrid m → hasFilledCell m → inPlay s → inPlay (tryKicks ks p m s).
Proof.
  intros Hgrid Hfilled Hin. induction ks as [|k ks IH]; [done |]. simpl.
  match goal with |- context [collides ?t (board s) ?d] =>
    destruct (collides t (board s) d) eqn:Hcol end; simpl; [exact IH |].
  destruct Hin as (Hwf & _ & _). split; [done |]. split.
  - intros q Hq. simpl in Hq. inversion Hq; subst q. simpl. done.
  - intros _ q Hq. simpl in Hq. inversion Hq; subst q. exact Hcol.
Qed.

End Invariants.

(** X9. from a state in play (a board of [ROWS] by [COLS] cells; an active
    piece, if any, with a proper matrix and a filled cell, lying free while
    the game runs) none of the four operations throws or loops for ever, and
    each leaves a state in play again. *)
Theorem operations_keep_in_play (v : Variant) (rnd : nat → nat) (dx : Z) (ccw : bool)
    (s : State) :
  inPlay s →
  inPlay (move v dx s) ∧
  (∃ s', softDrop v rnd s = Some s' ∧ inPlay s') ∧
  (∃ s', hardDrop v rnd s = Some s' ∧ inPlay s') ∧
  (∃ s', rotate ccw s = Some s' ∧ inPlay s').
Proof.
  intros Hin. pose proof Hin as (Hwf & Hshape & Hfree).
  split; [by apply move_inPlay |]. split; [| split].
  - unfold softDrop. destruct (paused s); [by exists s |].
    assert (Hin' : inPlay (setLastAction ActSoft s)) by (by apply (inPlay_ext s)).
    simpl. destruct (cur s) as [p|] eqn:Hcur; [| by eexists].
    destruct (running s) eqn:Hrun; simpl; [| by eexists].
    destruct (Hshape p eq_refl) as [Hgrid Hfilled].
    destruct (collides p (board s) (Point.mk 0 1)) eqn:Hcol; simpl.
    + destruct (lock_outcome v rnd (setLastAction ActSoft s) p Hwf Hcur Hgrid Hfilled
                  (Hfree eq_refl p eq_refl)) as (bm & b' & n & s' & _ & _ & E & Hout).
      exists s'. split; [exact E |]. apply Hout.
    + eexists. split; [reflexivity |]. split; [done |]. split.
      * intros q Hq. simpl in Hq. inversion Hq; subst q. simpl. by apply Hshape.
      * intros _ q Hq. simpl in Hq. inversion Hq; subst q.
        rewrite <- Hcol. apply collides_ext; simpl; [done | lia | lia].
  - destruct (paused s) eqn:Hp.
    { exists s. split; [| done]. unfold hardDrop. by rewrite Hp. }
    destruct (cur s) as [p|] eqn:Hcur.
    2:{ eexists. split; [unfold hardDrop; rewrite Hp; simpl; rewrite Hcur; reflexivity |].
        by apply (inPlay_ext s). }
    destruct (running s) eqn:Hrun.
    2:{ eexists. split; [unfold hardDrop; rewrite Hp; simpl; rewrite Hcur, Hrun; reflexivity |].
        by apply (inPlay_ext s). }
    destruct (Hshape p eq_refl) as [Hgrid Hfilled].
    destruct (hardDrop_lands_core v rnd s p Hp Hrun Hcur Hfilled) as (k & Hk & _ & Hsteps & E).
    rewrite E.
    destruct (lock_outcome v rnd
                (setScore (score s + k * 2)
                   (setCur (Some (lowered p k)) (setLastAction ActHard s)))
                (lowered p k) Hwf eq_refl Hgrid Hfilled)
      as (bm & b' & n & s' & _ & _ & E' & Hout).
    { simpl. apply lowered_free; [exact Hk | by apply Hfree | exact Hsteps]. }
    exists s'. split; [exact E' |]. apply Hout.
  - unfold rotate. destruct (cur s) as [p|] eqn:Hcur; [| by exists s].
    destruct (negb (running s) || paused s); [by exists s |].
    destruct (Hshape p eq_refl) as [Hgrid Hfilled].
    destruct (rotation_keeps_piece_shape_core ccw (Piece.matrix p) Hgrid Hfilled)
      as (m & Em & Hgm & Hfm).
    rewrite Em. exists (tryKicks kicks p m s). split; [reflexivity |].
    by apply tryKicks_inPlay.
Qed.

Lemma inPlay_wallState : inPlay wallState.
Proof.
  split; [apply wfBoard_createEmptyBoard |]. split.
  - intros p Hp. inversion Hp; subst p. simpl. split.
    + exists 3%nat, 3%nat. split; [lia |]. split; [lia |].
      split; [reflexivity | repeat constructor].
    + by exists 0%nat, 1%nat, 1.
  - intros _ p Hp. inversion Hp; subst p. reflexivity.
Qed.

Lemma operations_keep_in_play_witness :
  ∃ s', hardDrop GameClient noDraw wallState = Some s' ∧ inPlay s'.
Proof.
  apply (proj1 (proj2 (proj2 (operations_keep_in_play GameClient noDraw 1 false wallState
                                inPlay_wallState)))).
Defined.

(** * Further properties: score, lines and level across operations *)

Section Progress.
Variables (v : Variant) (rnd : nat → nat).

Lemma lockGain_nonneg (n : Z) (t : TSpin) (s : State) (b' : Board) :
  0 ≤ level s → 0 ≤ lockGain n t s b'.
Proof.
  intros Hl. unfold lockGain. destruct (0 <? n); [by apply clearScore_nonneg | lia].
Qed.

Lemma isTSpin_needs_rotate (s : State) (p : Piece.t) :
  lastAction s ≠ ActRotate → isTSpin s p = TNone.
Proof.
  intros Hla. unfold isTSpin. destruct (negb (bool_decide (Piece.kind p = kT))); [done |].
  by rewrite bool_decide_eq_false_2.
Qed.

Lemma lockOutcome_advances (s0 : State) (p : Piece.t) (b' : Board) (n : Z) (s' : State) :
  lockOutcome v s0 p b' n s' → 0 ≤ level s0 →
  score s0 ≤ score s' ∧ lines s0 ≤ lines s'.
Proof.
  intros (_ & _ & _ & Hn & Hs & Hl & _) Hlevel.
  pose proof (lockGain_nonneg n (isTSpin (setBoard b' s0) p) s0 b' Hlevel).
  split; lia.
Qed.

Lemma tryKicks_counters (ks : list Z) (p : Piece.t) (m : Matrix) (s : State) :
  score (tryKicks ks p m s) = score s ∧ lines (tryKicks ks p m s) = lines s ∧
  level (tryKicks ks p m s) = level s ∧ gravityMs (tryKicks ks p m s) = gravityMs s.
Proof.
  induction ks as [|k ks IH]; [done |]. simpl.
  match goal with |- context [negb (collides ?t ?b ?d)] =>
    destruct (negb (collides t b d)) end; [done | exact IH].
Qed.

(** What [softDrop] does in a running, unpaused game with an active piece. *)
Lemma softDrop_running (s : State) (p : Piece.t) :
  inPlay s → paused s = false → running s = true → cur s = Some p →
  (collides p (board s) (Point.mk 0 1) = false ∧
   softDrop v rnd s =
   Some (setScore (score s + 1) (setCur (Some (lowered p 1)) (setLastAction ActSoft s)))) ∨
  (collides p (board s) (Point.mk 0 1) = true ∧
   ∃ bm b' n s', merge p (board s) = Some bm ∧ clearRows bm = Some (b', n) ∧
                 softDrop v rnd s = Some s' ∧
                 lockOutcome v (setLastAction ActSoft s) p b' n s').
Proof.
  intros (Hwf & Hshape & Hfree) Hp Hr Hcur.
  destruct (Hshape p Hcur) as [Hgrid Hfilled].
  unfold softDrop. rewrite Hp. simpl. rewrite Hcur, Hr. simpl.
  destruct (collides p (board s) (Point.mk 0 1)) eqn:Hcol; simpl.
  - right. split; [done |].
    destruct (lock_outcome v rnd (setLastAction ActSoft s) p Hwf Hcur Hgrid Hfilled
                (Hfree Hr p Hcur)) as (bm & b' & n & s' & Em & Ec & E & Hout).
    by exists bm, b', n, s'.
  - left. done.
Qed.

Lemma hardDrop_running (s : State) (p : Piece.t) :
  inPlay s → paused s = false → running s = true → cur s = Some p →
  ∃ k bm b' n s',
    0 ≤ k ∧ collides (lowered p k) (board s) (Point.mk 0 1) = true ∧
    (∀ k', 0 ≤ k' < k → collides (lowered p k') (board s) (Point.mk 0 1) = false) ∧
    merge (lowered p k) (board s) = Some bm ∧ clearRows bm = Some (b', n) ∧
    hardDrop v rnd s = Some s' ∧
    lockOutcome v (setScore (score s + k * 2)
                     (setCur (Some (lowered p k)) (setLastAction ActHard s)))
                (lowered p k) b' n s'.
Proof.
  intros (Hwf & Hshape & Hfree) Hp Hr Hcur.
  destruct (Hshape p Hcur) as [Hgrid Hfilled].
  destruct (hardDrop_lands_core v rnd s p Hp Hr Hcur Hfilled) as (k & Hk & Hland & Hsteps & E).
  destruct (lock_outcome v rnd
              (setScore (score s + k * 2)
                 (setCur (Some (lowered p k)) (setLastAction ActHard s)))
              (lowered p k) Hwf eq_refl Hgrid Hfilled)
    as (bm & b' & n & s' & Em & Ec & E' & Hout).
  { simpl. apply lowered_free; [exact Hk | by apply Hfree | exact Hsteps]. }
  exists k, bm, b', n, s'. rewrite E. done.
Qed.

End Progress.

(** X10. A lock brought about by [softDrop] or [hardDrop] is never scored as
    a T-spin. Both record their own action before they lock, so [isTSpin],
    which asks for a rotation as the last action, answers none: the rows
    cleared are paid from the normal table, whatever the piece and the
    corners around it. For [softDrop] the piece locks where it stands; for
    [hardDrop] it locks [k] rows lower, [k] being the first distance at which
    one more step down collides, and 2 points are added per row. *)
Theorem drop_locks_never_tspin (v : Variant) (rnd : nat → nat) (s : State) (p : Piece.t) :
  inPlay s → paused s = false → running s = true → cur s = Some p →
  (collides p (board s) (Point.mk 0 1) = true →
   ∃ bm b' n s', merge p (board s) = Some bm ∧ clearRows bm = Some (b', n) ∧
                 softDrop v rnd s = Some s' ∧ board s' = b' ∧ lines s' = lines s + n ∧
                 score s' = score s + lockGain n TNone s b') ∧
  (∃ k bm b' n s',
     0 ≤ k ∧ collides (lowered p k) (board s) (Point.mk 0 1) = true ∧
     (∀ k', 0 ≤ k' < k → collides (lowered p k') (board s) (Point.mk 0 1) = false) ∧
     merge (lowered p k) (board s) = Some bm ∧ clearRows bm = Some (b', n) ∧
     hardDrop v rnd s = Some s' ∧ board s' = b' ∧ lines s' = lines s + n ∧
     score s' = score s + k * 2 + lockGain n TNone s b').
Proof.
  intros Hin Hp Hr Hcur. split.
  - intros Hcol.
    destruct (softDrop_running v rnd s p Hin Hp Hr Hcur) as [[Hno _]|(_ & Hlock)];
      [congruence |].
    destruct Hlock as (bm & b' & n & s' & Em & Ec & E & Hb & _ & _ & _ & Hs & Hl & _).
    exists bm, b', n, s'. repeat split; try done.
    rewrite Hs. rewrite isTSpin_needs_rotate by (simpl; discriminate). reflexivity.
  - destruct (hardDrop_running v rnd s p Hin Hp Hr Hcur)
      as (k & bm & b' & n & s' & Hk & Hland & Hsteps & Em & Ec & E & Hb & _ & _ & _ & Hs & Hl & _).
    exists k, bm, b', n, s'. repeat split; try done.
    rewrite Hs. rewrite isTSpin_needs_rotate by (simpl; discriminate). reflexivity.
Qed.

Lemma inPlay_pocketState : inPlay pocketState.
Proof.
  split; [split; [reflexivity | repeat constructor] |]. split.
  - intros p Hp. inversion Hp; subst p. simpl. split.
    + exists 3%nat, 3%nat. split; [lia |]. split; [lia |].
      split; [reflexivity | repeat constructor].
    + by exists 1%nat, 0%nat, 1.
  - intros _ p Hp. inversion Hp; subst p. reflexivity.
Qed.

Lemma drop_locks_never_tspin_witness :
  isTSpin pocketState (tDown (Point.mk 0 17)) = TFull ∧
  ∃ bm b' n s', merge (tDown (Point.mk 0 17)) (board pocketState) = Some bm ∧
                clearRows bm = Some (b', n) ∧
                softDrop GameClient noDraw pocketState = Some s' ∧ board s' = b' ∧
                lines s' = lines pocketState + n ∧
                score s' = score pocketState + lockGain n TNone pocketState b'.
Proof.
  split; [reflexivity |].
  apply (proj1 (drop_locks_never_tspin GameClient noDraw pocketState (tDown (Point.mk 0 17))
                  inPlay_pocketState eq_refl eq_refl eq_refl)).
  reflexivity.
Defined.

(** X11. From a state in play with a level of 0 or more, no operation
    lowers the score or the number of lines. *)
Theorem operations_advance (v : Variant) (rnd : nat → nat) (dx : Z) (ccw : bool) (s : State) :
  inPlay s → 0 ≤ level s →
  ∀ s', (s' = move v dx s ∨ softDrop v rnd s = Some s' ∨ hardDrop v rnd s = Some s' ∨
         rotate ccw s = Some s') →
        score s ≤ score s' ∧ lines s ≤ lines s'.
Proof.
  intros Hin Hlevel s' Hop.
  assert (Hquiet : ∀ t, score t = score s → lines t = lines s →
                        score s ≤ score t ∧ lines s ≤ lines t).
  { intros t Hs Hl. rewrite Hs, Hl. lia. }
  destruct Hop as [->|[Hsoft|[Hhard|Hrot]]].
  - apply Hquiet; unfold move; destruct (paused s); try reflexivity; simpl;
      destruct (cur s); try reflexivity; destruct (negb (running s)); try reflexivity;
      match goal with |- context [negb (collides ?p ?b ?d)] =>
        destruct (negb (collides p b d)) end; reflexivity.
  - destruct (paused s) eqn:Hp.
    { unfold softDrop in Hsoft. rewrite Hp in Hsoft. inversion Hsoft; subst. by apply Hquiet. }
    destruct (cur s) as [p|] eqn:Hcur.
    2:{ unfold softDrop in Hsoft. rewrite Hp in Hsoft. simpl in Hsoft. rewrite Hcur in Hsoft.
        inversion Hsoft; subst. by apply Hquiet. }
    destruct (running s) eqn:Hr.
    2:{ unfold softDrop in Hsoft. rewrite Hp in Hsoft. simpl in Hsoft.
        rewrite Hcur, Hr in Hsoft. inversion Hsoft; subst. by apply Hquiet. }
    destruct (softDrop_running v rnd s p Hin Hp Hr Hcur)
      as [[_ E]|(_ & bm & b' & n & s1 & _ & _ & E & Hout)];
      rewrite E in Hsoft; inversion Hsoft; subst.
    + simpl. lia.
    + apply (lockOutcome_advances v _ p b' n s' Hout Hlevel).
  - destruct (paused s) eqn:Hp.
    { unfold hardDrop in Hhard. rewrite Hp in Hhard. inversion Hhard; subst. by apply Hquiet. }
    destruct (cur s) as [p|] eqn:Hcur.
    2:{ unfold hardDrop in Hhard. rewrite Hp in Hhard. simpl in Hhard. rewrite Hcur in Hhard.
        inversion Hhard; subst. by apply Hquiet. }
    destruct (running s) eqn:Hr.
    2:{ unfold hardDrop in Hhard. rewrite Hp in Hhard. simpl in Hhard.
        rewrite Hcur, Hr in Hhard. inversion Hhard; subst. by apply Hquiet. }
    destruct (hardDrop_running v rnd s p Hin Hp Hr Hcur)
      as (k & bm & b' & n & s1 & Hk & _ & _ & _ & _ & E & Hout).
    rewrite E in Hhard. inversion Hhard; subst.
    destruct (lockOutcome_advances v _ (lowered p k) b' n s' Hout Hlevel) as (Hs & Hl).
    simpl in Hs, Hl. split; lia.
  - unfold rotate in Hrot. destruct (cur s) as [p|] eqn:Hcur.
    2:{ inversion Hrot; subst. by apply Hquiet. }
    destruct (negb (running s) || paused s).
    { inversion Hrot; subst. by apply Hquiet. }
    destruct (if ccw then rotateCCW (Piece.matrix p) else rotateCW (Piece.matrix p))
      as [m|]; [| discriminate].
    inversion Hrot; subst. clear Hrot.
    destruct (tryKicks_counters kicks p m s) as (? & ? & ? & ?). by apply Hquiet.
Qed.

Lemma operations_advance_witness :
  ∃ s', softDrop GameClient noDraw wellState = Some s' ∧
        score wellState ≤ score s' ∧ lines wellState ≤ lines s'.
Proof.
  assert (Hin : inPlay wellState).
  { split; [split; [reflexivity | repeat constructor] |]. split.
    - intros p Hp. inversion Hp; subst p. simpl. split.
      + exists 4%nat, 4%nat. split; [lia |]. split; [lia |].
        split; [reflexivity | repeat constructor].
      + by exists 0%nat, 2%nat, 1.
    - intros _ p Hp. inversion Hp; subst p. reflexivity. }
  destruct (softDrop GameClient noDraw wellState) as [s'|] eqn:E; [| vm_compute in E; discriminate].
  exists s'. split; [reflexivity |].
  destruct (operations_advance GameClient noDraw 0 false wellState Hin ltac:(simpl; lia) s')
    as (Hs & Hl); [right; left; exact E |].
  split; [exact Hs | exact Hl].
Defined.

(** * Further properties: where pieces spawn *)

Lemma cells_of_rows_above (p : Piece.t) (delta : Point.t) (h : nat) :
  (∀ (i j : nat) v, cell (Piece.matrix p) i j = Some v → v ≠ 0 → (i < h)%nat) →
  Point.y (Piece.pos p) + Z.of_nat h + Point.y delta ≤ 0 →
  ∀ (i j : nat) v, cell (Piece.matrix p) i j = Some v → v ≠ 0 → cellY p delta i < 0.
Proof.
  intros Hrows Hy i j v Hc Hv. specialize (Hrows i j v Hc Hv). unfold cellY. lia.
Qed.

Lemma filled_rows_below_two (m : Matrix) (r0 r1 : list Z) (rest : Matrix) :
  m = r0 :: r1 :: rest → Forall (Forall (λ v, v = 0)) rest →
  ∀ (i j : nat) v, cell m i j = Some v → v ≠ 0 → (i < 2)%nat.
Proof.
  intros -> Hzero i j v Hc Hv. destruct i as [|[|i]]; [lia | lia |]. exfalso.
  unfold cell in Hc. simpl in Hc.
  destruct (rest !! i) as [row|] eqn:Hrow; [| discriminate]. simpl in Hc.
  pose proof (Forall_lookup_1 _ _ _ _ Hzero Hrow) as Hr.
  by pose proof (Forall_lookup_1 _ _ _ _ Hr Hc).
Qed.

(** X14. every kind but O spawns with all its filled cells above row zero, so
    its spawn is never blocked, whatever the board holds; only an O can end
    the game at spawn, and it does so exactly when cell (0, 4) or (0, 5) of
    the board is filled. *)
Theorem spawn_blocked_only_for_O (b : Board) (k : Tetromino) :
  (k ≠ kO → collides (spawnPiece k) b origin = false) ∧
  (collides (spawnPiece kO) b origin = filledAt b 0 4 || filledAt b 0 5).
Proof.
  split.
  - intros Hk. apply collides_above_top.
    destruct k; try done;
      (apply (cells_of_rows_above _ _ 2); [| vm_compute; intros Hgt; discriminate Hgt]);
      (eapply filled_rows_below_two; [reflexivity | repeat constructor]).
  - unfold collides. simpl.
    change (- Z.of_nat 2 + 1 + (0 + 1) + 0) with 0.
    change ((COLS - Z.of_nat 2) `div` 2 + 0 + 0) with 4.
    change ((COLS - Z.of_nat 2) `div` 2 + (0 + 1) + 0) with 5.
    by destruct (filledAt b 0 4), (filledAt b 0 5).
Qed.

(** X15. after [spawn] the queue is never shorter than two; the kinds that
    were waiting come out before those of the bag that was added. *)
Theorem spawn_queue (rnd : nat → nat) (s : State) :
  ∃ s' k, spawn rnd s = Some s' ∧ (2 ≤ length (next s'))%nat ∧
          ((2 < length (next s))%nat → next s = k :: next s') ∧
          ((length (next s) ≤ 2)%nat → next s ++ newBag rnd = k :: next s').
Proof.
  destruct (refill_nonempty rnd (next s)) as (k & rest & Hq).
  assert (Hnext : ∀ s', spawn rnd s = Some s' → next s' = rest).
  { intros s' E. rewrite (spawn_unfold rnd s k rest Hq) in E. inversion E; subst.
    by destruct (collides _ _ _). }
  destruct (spawn rnd s) as [s'|] eqn:E.
  2:{ rewrite (spawn_unfold rnd s k rest Hq) in E. discriminate. }
  exists s', k. split; [reflexivity |]. rewrite (Hnext s' eq_refl).
  unfold refill in Hq. pose proof (length_newBag rnd) as Hbag.
  destruct (Nat.leb_spec (length (next s)) 2) as [Hle|Hgt].
  - apply (f_equal length) in Hq as Hlen. rewrite length_app, Hbag in Hlen. simpl in Hlen.
    split; [lia |]. split; [lia | done].
  - apply (f_equal length) in Hq as Hlen. simpl in Hlen.
    split; [lia |]. split; [done | lia].
Qed.

(** * Further properties: move *)

(** X16. in a running, unpaused game [move] shifts the active piece by [dx]
    columns (by [-dx] in the game page while a reverse challenge is on) when
    the piece is free there, and leaves it where it is when not; either way
    it records the move as last action and touches nothing else: not the
    board, the shape, the row, the score or the kick flag. *)
Theorem move_effect (v : Variant) (dx : Z) (s : State) (p : Piece.t) :
  paused s = false → running s = true → cur s = Some p →
  let actualDx :=
    match v with
    | GameClient => if bool_decide (Challenge.type (challenge s) = Reverse) then - dx else dx
    | ClassicPage => dx
    end in
  move v dx s =
  setCur (Some (if collides p (board s) (Point.mk actualDx 0) then p
                else shifted p actualDx 0))
         (setLastAction ActMove s) ∧
  (collides p (board s) origin = false →
   ∀ q, cur (move v dx s) = Some q → collides q (board s) origin = false).
Proof.
  intros Hp Hr Hcur. simpl.
  set (d := match v with
            | GameClient =>
                if bool_decide (Challenge.type (challenge s) = Reverse) then - dx else dx
            | ClassicPage => dx
            end).
  assert (Hmove : move v dx s =
                  if negb (collides p (board s) (Point.mk d 0))
                  then setCur (Some (shifted p d 0)) (setLastAction ActMove s)
                  else setLastAction ActMove s).
  { unfold move, shifted, Piece.withPos. rewrite Hp. simpl. rewrite Hcur, Hr. simpl.
    rewrite Z.add_0_r. subst d. by destruct v. }
  assert (Hstay : setLastAction ActMove s = setCur (Some p) (setLastAction ActMove s)).
  { unfold setCur, setLastAction. simpl. by rewrite Hcur. }
  rewrite Hmove. destruct (collides p (board s) (Point.mk d 0)) eqn:Hcol; simpl.
  - split; [exact Hstay |]. intros Hfree q Hq. rewrite Hcur in Hq. by inversion Hq; subst q.
  - split; [reflexivity |]. intros _ q Hq. inversion Hq; subst q.
    rewrite <- Hcol. apply collides_ext; unfold shifted, origin; simpl; first [done | lia].
Qed.

Lemma move_effect_witness :
  move ClassicPage 1 wallState =
  setCur (Some (shifted (Piece.mk kT [[0; 1; 0]; [0; 1; 1]; [0; 1; 0]] (Point.mk (-1) 5)
                                  (COLORS kT)) 1 0))
         (setLastAction ActMove wallState).
Proof.
  apply (proj1 (move_effect ClassicPage 1 wallState _ eq_refl eq_refl eq_refl)).
Defined.

(** * T-spin classification at the locks the page performs *)






